(** * vso-agent: worker lifecycle and task bundle cache

    A shallow embedding of [src/agent/vsoworker.ts] and
    [src/agent/taskmanager.ts].

    - JavaScript strings are [string]; [a + b] on strings is [a +:+ b] and
      [a > b] is the lexicographic comparison of the character codes.
    - A JavaScript object used as a dictionary is a [gmap string _] (its own
      keys); reading a key that is not there gives [undefined], here [None].
    - The disk is the set of the paths that exist.
    - A [Q] deferred is a three-valued state; settling a settled deferred
      does nothing.
    - Functions of [common.ts], of the web API and of the node library that
      the two files call are fields of the classes [Worker.Platform] and
      [TaskManager.Platform]. *)

From stdpp Require Import gmap strings list pretty.


(** ** JavaScript values *)

Module JS.

(** [undefined + ':'] is the text [undefined:]. *)
Definition to_str (v : option string) : string := default "undefined" v.

(** Truthiness of a value that is a string or [undefined]: only
    [undefined] and the empty string are falsy. *)
Definition truthy (v : option string) : bool :=
  match v with
  | Some s => bool_decide (s ≠ "")
  | None => false
  end.

(** How a function body ends. *)
Inductive completion : Type :=
  | Normal
  | Throw (e : string).

(** [a > b] on strings: [a] comes strictly after [b] in the
    lexicographic order of the character codes. *)
Definition str_gt (a b : string) : bool := negb (String.leb a b).

(** The property names that every plain object inherits from
    [Object.prototype]. *)
Definition Object_prototype : list string :=
  ["constructor"; "toString"; "toLocaleString"; "valueOf";
   "hasOwnProperty"; "isPrototypeOf"; "propertyIsEnumerable";
   "__defineGetter__"; "__defineSetter__"; "__lookupGetter__";
   "__lookupSetter__"; "__proto__"].

(** [k in obj] for a plain object whose own keys are those of [obj]: the
    operator sees the inherited names as well. *)
Definition has_property {V : Type} (k : string) (obj : gmap string V)
    : bool :=
  bool_decide (is_Some (obj !! k)) || bool_decide (k ∈ Object_prototype).

End JS.

(** ** Q promises *)

Module Q.

Inductive state : Type :=
  | Pending
  | Fulfilled
  | Rejected (err : string).

(** [deferred.resolve(null)] *)
Definition resolve (d : state) : state :=
  match d with
  | Pending => Fulfilled
  | _ => d
  end.

(** [deferred.reject(err)] *)
Definition reject (err : string) (d : state) : state :=
  match d with
  | Pending => Rejected err
  | _ => d
  end.

End Q.

(** ** vsoworker.ts: setVariables *)

Module Worker.

Record Endpoint : Type := { endpoint_url : string }.

Record SystemConnection : Type :=
  { connection_url : string;
    accessToken : option string }.

Record JobAuthorization : Type := { serverUrl : string }.

Record MaskHint : Type := { mask_type : string; mask_value : string }.

Record JobEnvironment : Type :=
  { variables : gmap string string;
    endpoints : option (list Endpoint);
    mask : option (list MaskHint);
    systemConnection : option SystemConnection }.

Record JobRequestMessage : Type :=
  { jobName : string;
    environment : JobEnvironment;
    authorization : JobAuthorization }.

Definition with_variables (vars : gmap string string)
    (job : JobRequestMessage) : JobRequestMessage :=
  {| jobName := jobName job;
     environment :=
       {| variables := vars;
          endpoints := endpoints (environment job);
          mask := mask (environment job);
          systemConnection := systemConnection (environment job) |};
     authorization := authorization job |}.

(** The variable names [cm.sysVars], [cm.agentVars] and [cm.buildVars]. *)
Record VarNames : Type :=
  { sysVars_system : string;
    sysVars_collectionId : string;
    sysVars_collectionUri : string;
    sysVars_definitionId : string;
    agentVars_workingDirectory : string;
    agentVars_buildDirectory : string;
    buildVars_stagingDirectory : string }.

(** The URLs of the endpoints in listed order; a job without an endpoint
    list has none. *)
Definition endpoint_urls (job : JobRequestMessage) : list string :=
  match endpoints (environment job) with
  | Some eps => endpoint_url <$> eps
  | None => []
  end.

(** What [setVariables] takes from its surroundings. *)
Class Platform : Type :=
  { IConfiguration : Type;
    (** [cm.getWorkPath] *)
    getWorkPath : IConfiguration → string;
    cm : VarNames;
    (** [path.join] of node, on strings *)
    path_join : list string → string;
    (** [crypto.createHash("sha256").update(s, 'utf8').digest('hex')] *)
    sha256_hex : string → string }.

(** The value [setVariables] gives the collection-URI variable when it
    writes it. *)
Definition collectionUri_default (job : JobRequestMessage) : string :=
  match systemConnection (environment job) with
  | Some c => connection_url c
  | None => serverUrl (authorization job)
  end.

(** The string that is hashed, built as the source builds it: the two
    ids, then one [forEach] step per endpoint. *)
Definition hashInput (collId defId : option string)
    (eps : option (list Endpoint)) : string :=
  let hashInput := JS.to_str collId +:+ ":" +:+ JS.to_str defId in
  match eps with
  | Some eps =>
      fold_left (λ hashInput endpoint,
                   hashInput +:+ ":" +:+ endpoint_url endpoint)
                eps hashInput
  | None => hashInput
  end.

(** [setVariables] updates the variable map of [job] in place; the
    result is the job afterwards and how the call ended. [path.join]
    takes strings only: an [undefined] system name makes it throw, after
    the collection URI has been written and before the three directory
    variables are. *)
Definition setVariables `{Platform} (job : JobRequestMessage)
    (config : IConfiguration) : JobRequestMessage * JS.completion :=
  let workingFolder := getWorkPath config in
  let variables0 := variables (environment job) in
  let sys := variables0 !! sysVars_system cm in
  let collId := variables0 !! sysVars_collectionId cm in
  let variables1 :=
    if negb (JS.truthy (variables0 !! sysVars_collectionUri cm))
    then <[sysVars_collectionUri cm := collectionUri_default job]> variables0
    else variables0 in
  let defId := variables1 !! sysVars_definitionId cm in
  let hashInput := hashInput collId defId (endpoints (environment job)) in
  let hash := sha256_hex hashInput in
  match sys with
  | None =>
      (with_variables variables1 job,
       JS.Throw "TypeError: Arguments to path.join must be strings")
  | Some sys =>
      let buildDirectory := path_join [workingFolder; sys; hash] in
      let variables2 :=
        <[agentVars_workingDirectory cm := workingFolder]> variables1 in
      let variables3 :=
        <[agentVars_buildDirectory cm := buildDirectory]> variables2 in
      let stagingFolder := path_join [buildDirectory; "staging"] in
      let variables4 :=
        <[buildVars_stagingDirectory cm := stagingFolder]> variables3 in
      (with_variables variables4 job, JS.Normal)
  end.

(** The variable map once [setVariables] has looked at the collection
    URI. *)
Definition after_collectionUri `{Platform} (job : JobRequestMessage)
    : gmap string string :=
  if negb (JS.truthy (variables (environment job) !! sysVars_collectionUri cm))
  then <[sysVars_collectionUri cm := collectionUri_default job]>
         (variables (environment job))
  else variables (environment job).

(** The hash input in the words of the specification: the collection id,
    a colon, the definition id, then a colon and the URL for each endpoint
    in listed order. *)
Definition hashInput_spec (collectionId definitionId : string)
    (urls : list string) : string :=
  collectionId +:+ ":" +:+ definitionId
    +:+ foldr (λ url rest, ":" +:+ url +:+ rest) "" urls.

(** *** run: the two finalize paths

    The part of [run] that follows the creation of the job runner, for a
    job message: the guard [finishingJob], the handler of the
    [JobAbandoned] event and the callback given to [jobRunner.run]. A state
    holds the variables the two closures share and the promises they chain
    handlers on. [ctx.finishJob] and [serviceChannel.drain] are operations
    of other modules: each returns a promise that settles later, once,
    with either outcome. *)

(** [ifm.TaskResult] is a numeric enumeration. *)
Definition TaskResult : Type := nat.

Inductive LogEntry : Type :=
  | TraceWrite (text : string)
  | TraceCallback (text : string)
  | Status (text : string)
  | Error (text : string).

Inductive FinalizePath : Type :=
  | ByCompletion
  | ByAbandonment.

Inductive Operation : Type :=
  | Drain
  | FinishJob (result : TaskResult).

(** The four functions that [run] chains on a promise. *)
Inductive Callback : Type :=
  | Drained
  | FinishJobReturned
  | FinishJobFailed
  | ResolveDeferred.

(** [p.fin(cb)] runs [cb] when [p] settles and keeps the outcome;
    [p.fail(cb)] runs [cb] when [p] is rejected and is then fulfilled. *)
Inductive Handler : Type :=
  | OnFin (cb : Callback)
  | OnFail (cb : Callback).

Record Chain : Type :=
  { operation : Operation;
    promise : Q.state;
    handlers : list Handler }.

Record State : Type :=
  { listening : bool;
    finishingJob : bool;
    deferred : Q.state;
    chains : list Chain;
    log : list LogEntry;
    (** the guarded blocks that ran, in order *)
    finalized : list FinalizePath;
    (** how often [deferred.resolve] was called *)
    resolve_calls : nat }.

Definition logged (entries : list LogEntry) (s : State) : State :=
  {| listening := listening s; finishingJob := finishingJob s;
     deferred := deferred s; chains := chains s;
     log := log s ++ entries;
     finalized := finalized s; resolve_calls := resolve_calls s |}.

(** [deferred.resolve(null)] *)
Definition resolved (s : State) : State :=
  {| listening := listening s; finishingJob := finishingJob s;
     deferred := Q.resolve (deferred s); chains := chains s;
     log := log s;
     finalized := finalized s; resolve_calls := S (resolve_calls s) |}.

(** The body of a guarded block: set the flag, start [op] and chain [hs]
    on its promise. *)
Definition finalizing (path : FinalizePath) (op : Operation)
    (hs : list Handler) (s : State) : State :=
  {| listening := listening s; finishingJob := true;
     deferred := deferred s;
     chains := chains s ++ [{| operation := op; promise := Q.Pending;
                               handlers := hs |}];
     log := log s;
     finalized := finalized s ++ [path];
     resolve_calls := resolve_calls s |}.

Definition with_chains (cs : list Chain) (s : State) : State :=
  {| listening := listening s; finishingJob := finishingJob s;
     deferred := deferred s; chains := cs;
     log := log s;
     finalized := finalized s; resolve_calls := resolve_calls s |}.

(** The state in which [run] returns for a job message. *)
Definition started : State :=
  {| listening := true; finishingJob := false; deferred := Q.Pending;
     chains := []; log := []; finalized := []; resolve_calls := 0 |}.

(** The state in which [run] returns for any other message: the promise
    is resolved at once and nothing is registered. *)
Definition ignored : State :=
  {| listening := false; finishingJob := false; deferred := Q.Fulfilled;
     chains := []; log := []; finalized := []; resolve_calls := 1 |}.

Definition run (messageType : string) : State :=
  if bool_decide (messageType = "job") then started else ignored.

Inductive Event : Type :=
  (** [jobRunner.run] calls back *)
  | EngineCompleted (err : option string) (result : TaskResult)
  (** the service channel emits [JobAbandoned] *)
  | JobAbandoned
  (** the operation of chain [i] settles, rejected when [err] is given *)
  | Settled (i : nat) (err : option string)
  (** the next handler of chain [i] gets its turn *)
  | Tick (i : nat).

Definition is_trigger (e : Event) : bool :=
  match e with
  | EngineCompleted _ _ | JobAbandoned => true
  | _ => false
  end.

Definition path_of (e : Event) : option FinalizePath :=
  match e with
  | EngineCompleted _ _ => Some ByCompletion
  | JobAbandoned => Some ByAbandonment
  | _ => None
  end.

Section Run.

Variable job_name : string.

(** The handler of [fm.Events.JobAbandoned]. *)
Definition on_JobAbandoned (s : State) : State :=
  if negb (finishingJob s) then
    let s := finalizing ByAbandonment Drain [OnFin Drained] s in
    logged [Error "Job abandoned by the server."] s
  else s.

(** The callback given to [jobRunner.run]. *)
Definition on_EngineCompleted (err : option string) (result : TaskResult)
    (s : State) : State :=
  let s := logged [TraceCallback "job.run";
                   Status ("Job Completed: " +:+ job_name)] s in
  let s := match err with
           | Some message => logged [Error ("Error: " +:+ message)] s
           | None => s
           end in
  if negb (finishingJob s) then
    finalizing ByCompletion (FinishJob result)
               [OnFin FinishJobReturned; OnFail FinishJobFailed;
                OnFin ResolveDeferred] s
  else s.

(** The bodies of the chained functions; [reason] is the message of the
    error object that the promise was rejected with, for a [fail] handler.
    An error object is truthy whatever its message, so that [if (err)]
    holds for every rejection. *)
Definition run_callback (cb : Callback) (reason : option string)
    (s : State) : State :=
  match cb with
  | Drained => resolved (logged [TraceWrite "Service channel drained"] s)
  | FinishJobReturned =>
      logged [TraceCallback "ctx.finishJob";
              Status ("Job Finished: " +:+ job_name)] s
  | FinishJobFailed =>
      match reason with
      | Some message => logged [Error ("Error: " +:+ message)] s
      | None => s
      end
  | ResolveDeferred => resolved s
  end.

(** One handler of a settled chain runs. *)
Definition tick (i : nat) (s : State) : option State :=
  match chains s !! i with
  | Some {| operation := op; promise := p; handlers := h :: hs |} =>
      match p, h with
      | Q.Pending, _ => None
      | _, OnFin cb =>
          let c := {| operation := op; promise := p; handlers := hs |} in
          Some (run_callback cb None (with_chains (<[i := c]> (chains s)) s))
      | Q.Rejected reason, OnFail cb =>
          let c := {| operation := op; promise := Q.Fulfilled;
                      handlers := hs |} in
          Some (run_callback cb (Some reason)
                             (with_chains (<[i := c]> (chains s)) s))
      | Q.Fulfilled, OnFail cb =>
          let c := {| operation := op; promise := p; handlers := hs |} in
          Some (with_chains (<[i := c]> (chains s)) s)
      end
  | _ => None
  end.

(** The operation of chain [i] settles. *)
Definition settle (i : nat) (err : option string) (s : State)
    : option State :=
  match chains s !! i with
  | Some {| operation := op; promise := Q.Pending; handlers := hs |} =>
      let p := match err with
               | Some e => Q.Rejected e
               | None => Q.Fulfilled
               end in
      let c := {| operation := op; promise := p; handlers := hs |} in
      Some (with_chains (<[i := c]> (chains s)) s)
  | _ => None
  end.

(** One event; [None] when it cannot happen in [s]. *)
Definition step (e : Event) (s : State) : option State :=
  match e with
  | EngineCompleted err result =>
      if listening s then Some (on_EngineCompleted err result s) else None
  | JobAbandoned =>
      if listening s then Some (on_JobAbandoned s) else None
  | Settled i err => settle i err s
  | Tick i => tick i s
  end.

Fixpoint exec (events : list Event) (s : State) : option State :=
  match events with
  | [] => Some s
  | e :: rest =>
      match step e s with
      | Some s => exec rest s
      | None => None
      end
  end.

End Run.

(** Nothing is in flight and no handler is waiting for its turn. *)
Definition quiescent (s : State) : Prop :=
  Forall (λ c, promise c ≠ Q.Pending ∧ handlers c = []) (chains s).

(** [s'] differs from [s] in its log at most. *)
Definition same_but_log (s s' : State) : Prop :=
  listening s' = listening s ∧ finishingJob s' = finishingJob s ∧
  deferred s' = deferred s ∧ chains s' = chains s ∧
  finalized s' = finalized s ∧ resolve_calls s' = resolve_calls s.

(** The paths of the triggers among [events], in order of arrival. *)
Definition arrivals (events : list Event) : list FinalizePath :=
  omap path_of events.

(** The handlers that may still wait on the promise of [op], started on
    [path], when that promise is in state [p]. *)
Definition waiting (path : FinalizePath) (op : Operation) (p : Q.state)
    (hs : list Handler) : Prop :=
  match path, op with
  | ByAbandonment, Drain => hs = [OnFin Drained]
  | ByCompletion, FinishJob _ =>
      hs = [OnFin FinishJobReturned; OnFail FinishJobFailed;
            OnFin ResolveDeferred] ∨
      (p ≠ Q.Pending ∧
       (hs = [OnFail FinishJobFailed; OnFin ResolveDeferred] ∨
        hs = [OnFin ResolveDeferred]))
  | _, _ => False
  end.

(** The three phases of a run after [run] has returned for a job message:
    no trigger yet; one guarded block has run and its operation or one of
    its handlers is outstanding; all is done. *)
Inductive Phase (s : State) : Prop :=
  | Running :
      listening s = true → finishingJob s = false → chains s = [] →
      finalized s = [] → resolve_calls s = 0 → deferred s = Q.Pending →
      Phase s
  | Finalizing (path : FinalizePath) (op : Operation) (p : Q.state)
      (hs : list Handler) :
      listening s = true → finishingJob s = true →
      chains s = [{| operation := op; promise := p; handlers := hs |}] →
      waiting path op p hs →
      finalized s = [path] → resolve_calls s = 0 → deferred s = Q.Pending →
      Phase s
  | Terminated (path : FinalizePath) (op : Operation) (p : Q.state) :
      listening s = true → finishingJob s = true →
      chains s = [{| operation := op; promise := p; handlers := [] |}] →
      p ≠ Q.Pending →
      finalized s = [path] → resolve_calls s = 1 → deferred s = Q.Fulfilled →
      Phase s.

(** No operation has settled yet. *)
Definition unsettled (s : State) : Prop :=
  deferred s = Q.Pending ∧ resolve_calls s = 0 ∧
  Forall (λ c, promise c = Q.Pending) (chains s).

(** [e] is no trigger, and an operation that settles in [e] does so with
    the outcome [err]. *)
Definition follows (err : option string) (e : Event) : Prop :=
  match e with
  | Settled _ outcome => outcome = err
  | Tick _ => True
  | _ => False
  end.

(** After the events [seen]: no operation has settled as long as every
    chain is pending, and a failure of [finishJob] with the message
    [reason] is either still on its way to the [fail] handler or in the
    log. *)
Definition failure_noted (seen : list Event) (s : State) : Prop :=
  (Forall (λ c, promise c = Q.Pending) (chains s) →
   ∀ i err, Settled i err ∉ seen) ∧
  (∀ i reason,
     Settled i (Some reason) ∈ seen → finalized s = [ByCompletion] →
     (∃ result hs,
        chains s = [{| operation := FinishJob result;
                       promise := Q.Rejected reason; handlers := hs |}] ∧
        OnFail FinishJobFailed ∈ hs) ∨
     Error ("Error: " +:+ reason) ∈ log s).

(** The operation that the guarded block of a trigger starts. *)
Definition operation_of (e : Event) : option Operation :=
  match e with
  | EngineCompleted _ result => Some (FinishJob result)
  | JobAbandoned => Some Drain
  | _ => None
  end.

End Worker.

(** ** taskmanager.ts *)

Module TaskManager.

Record TaskInstance : Type :=
  { id : string; name : string; version : string }.

Record TaskVersion : Type := { major : nat; minor : nat; patch : nat }.

(** A catalog entry, as [getTasks] lists it. *)
Record TaskDefinition : Type :=
  { def_id : string; def_name : string; def_version : TaskVersion }.

#[global] Instance TaskInstance_eq_dec : EqDecision TaskInstance.
Proof. solve_decision. Defined.

(** What a [TaskManager] takes from its surroundings. *)
Class Platform : Type :=
  { (** [this.taskFolder], set by the constructor *)
    taskFolder : string;
    (** [path.resolve] of node *)
    path_resolve : list string → string;
    (** [cm.versionStringFromTaskDef] *)
    versionStringFromTaskDef : TaskDefinition → string }.

(** *** The disk *)

(** [q] is the path [p] or lies below it. *)
Definition is_under (p q : string) : Prop :=
  q = p ∨ String.prefix (p +:+ "/") q = true.

#[global] Instance is_under_dec p q : Decision (is_under p q).
Proof. unfold is_under. apply _. Defined.

(** The directories above [s]: every non-empty part of the path that ends
    right before a [/]. [pre] is the part already read. *)
Fixpoint ancestors_from (pre s : string) : list string :=
  match s with
  | EmptyString => []
  | String c s' =>
      (if bool_decide (String c "" = "/" ∧ pre ≠ "") then [pre] else [])
        ++ ancestors_from (pre +:+ String c "") s'
  end.

Definition ancestors (p : string) : list string := ancestors_from "" p.

(** [shell.mkdir('-p', p)] *)
Definition mkdir_p (p : string) (disk : gset string) : gset string :=
  disk ∪ {[p]} ∪ list_to_set (ancestors p).

(** [shell.rm('-rf', p)] *)
Definition rm_rf (p : string) (disk : gset string) : gset string :=
  filter (λ q, ¬ is_under p q) disk.

(** [fs.existsSync(p)] *)
Definition existsSync (p : string) (disk : gset string) : bool :=
  bool_decide (p ∈ disk).

(** *** The world a task manager acts on *)

(** The calls that are counted: those of the manager's own methods and
    those that leave the process. *)
Inductive Call : Type :=
  | CallEnsureTaskExists (task : TaskInstance)
  | CallEnsureTasksExist (tasks : list TaskInstance)
  | CallGetTasks
  | CallDownloadTask (taskId taskVersion filePath : string)
  | CallExtractFile (source dest : string).

#[global] Instance Call_eq_dec : EqDecision Call.
Proof. solve_decision. Defined.

Record World : Type :=
  { disk : gset string;
    calls : list Call }.

Definition on_disk (f : gset string → gset string) (w : World) : World :=
  {| disk := f (disk w); calls := calls w |}.

Definition call (c : Call) (w : World) : World :=
  {| disk := disk w; calls := calls w ++ [c] |}.

(** The calls to the task API, which go over the network. *)
Definition is_network (c : Call) : bool :=
  match c with
  | CallGetTasks | CallDownloadTask _ _ _ => true
  | _ => false
  end.

Definition is_download (c : Call) : bool :=
  match c with
  | CallDownloadTask _ _ _ => true
  | _ => false
  end.

Definition is_ensure (c : Call) : bool :=
  match c with
  | CallEnsureTaskExists _ => true
  | _ => false
  end.

(** What the two asynchronous helpers of [downloadTask] report and leave
    on disk: [taskApi.downloadTask] writes at most the file it is given,
    [cm.extractFile] writes below its destination only. *)
Record DownloadReply : Type :=
  { download_err : option string;
    download_wrote : bool }.

Record ExtractReply : Type :=
  { extract_err : option string;
    extract_files : list string }.

Definition downloaded (r : DownloadReply) (filePath : string)
    (disk : gset string) : gset string :=
  if download_wrote r then disk ∪ {[filePath]} else disk.

Definition extracted (r : ExtractReply) (dest : string)
    (disk : gset string) : gset string :=
  disk ∪ list_to_set ((λ f, dest +:+ "/" +:+ f) <$> extract_files r).

Section Methods.

Context `{Platform}.

Definition getTaskPath (task : TaskInstance) : string :=
  path_resolve [taskFolder; name task; version task].

Definition getTaskInstance (task : TaskDefinition) : TaskInstance :=
  {| id := def_id task;
     name := def_name task;
     version := versionStringFromTaskDef task |}.

Definition hasTask (task : TaskInstance) (w : World) : bool :=
  if existsSync (getTaskPath task) (disk w) then true else false.

(** [downloadTask], first part: what runs before the method returns its
    pending promise. *)
Definition downloadTask (task : TaskInstance) (w : World)
    : Q.state * World :=
  let taskPath := getTaskPath task in
  let w := on_disk (mkdir_p taskPath) w in
  let w := call (CallDownloadTask (id task) (version task)
                                  (taskPath +:+ ".zip")) w in
  (Q.Pending, w).

(** The callback given to [taskApi.downloadTask]. It does not return
    after rejecting: the extraction is started in both cases. *)
Definition downloadTask_downloaded (task : TaskInstance)
    (err : option string) (deferred : Q.state) (w : World)
    : Q.state * World :=
  let taskPath := getTaskPath task in
  let deferred :=
    match err with
    | Some e => Q.reject e deferred
    | None => deferred
    end in
  (deferred, call (CallExtractFile (taskPath +:+ ".zip") taskPath) w).

(** The callback given to [cm.extractFile]. *)
Definition downloadTask_extracted (task : TaskInstance)
    (err : option string) (deferred : Q.state) (w : World)
    : Q.state * World :=
  let taskPath := getTaskPath task in
  let '(deferred, w) :=
    match err with
    | Some e => (Q.reject e deferred, on_disk (rm_rf taskPath) w)
    | None => (deferred, w)
    end in
  let w := on_disk (rm_rf (taskPath +:+ ".zip")) w in
  (Q.resolve deferred, w).

(** One whole [downloadTask], with the replies of its two helpers. *)
Definition downloadTask_run (task : TaskInstance) (dl : DownloadReply)
    (ex : ExtractReply) (w : World) : Q.state * World :=
  let taskPath := getTaskPath task in
  let '(deferred, w) := downloadTask task w in
  let w := on_disk (downloaded dl (taskPath +:+ ".zip")) w in
  let '(deferred, w) :=
    downloadTask_downloaded task (download_err dl) deferred w in
  let w := on_disk (extracted ex taskPath) w in
  downloadTask_extracted task (extract_err ex) deferred w.

Definition ensureTaskExists (task : TaskInstance) (w : World)
    : Q.state * World :=
  let w := call (CallEnsureTaskExists task) w in
  if negb (hasTask task w) then downloadTask task w
  else (Q.Fulfilled, w).

(** The bookkeeping loop of [ensureTasksExist]. An [idVersion] holds a
    colon, so that none is a name that [alreadyAdded] inherits: [in] is
    membership in the keys added. *)
Definition uniqueTasks_step (st : gset string * list TaskInstance)
    (task : TaskInstance) : gset string * list TaskInstance :=
  let '(alreadyAdded, uniqueTasks) := st in
  let idVersion := id task +:+ ":" +:+ version task in
  if negb (bool_decide (idVersion ∈ alreadyAdded))
  then ({[idVersion]} ∪ alreadyAdded, uniqueTasks ++ [task])
  else (alreadyAdded, uniqueTasks).

Definition uniqueTasks_of (tasks : list TaskInstance) : list TaskInstance :=
  snd (fold_left uniqueTasks_step tasks (∅, [])).

(** [tasks.map(task => this.ensureTaskExists(task))]: the calls run one
    after the other, each on the world the one before left. *)
Fixpoint map_ensureTaskExists (tasks : list TaskInstance) (w : World)
    : list Q.state * World :=
  match tasks with
  | [] => ([], w)
  | task :: rest =>
      let '(p, w) := ensureTaskExists task w in
      let '(ps, w) := map_ensureTaskExists rest w in
      (p :: ps, w)
  end.

(** [ensureTasksExist] up to its return: the promises handed to [Q.all]
    and the world. [uniqueTasks] is computed and not read again; the
    map runs over [tasks]. *)
Definition ensureTasksExist (tasks : list TaskInstance) (w : World)
    : list Q.state * World :=
  let w := call (CallEnsureTasksExist tasks) w in
  let uniqueTasks := uniqueTasks_of tasks in
  let promises := map_ensureTaskExists tasks w in
  promises.

(** One turn of the loop of [ensureLatestExist] that keeps the latest
    version of every id. [None] stands for the [TypeError] that reading
    [.version] of [undefined] raises: [latestTasks[latestIndex[task.id]]]
    is [undefined] when the index is past the end of the array, and when
    [task.id] is a name that [latestIndex] inherits, whose value is a
    function or an object and the index of no slot. *)
Definition latest_step
    (st : gmap string nat * list TaskInstance) (task : TaskDefinition)
    : option (gmap string nat * list TaskInstance) :=
  let '(latestIndex, latestTasks) := st in
  if negb (JS.has_property (def_id task) latestIndex) then
    let latestTasks := latestTasks ++ [getTaskInstance task] in
    Some (<[def_id task := length latestTasks - 1]> latestIndex,
          latestTasks)
  else
    match latestIndex !! def_id task with
    | Some i =>
        match latestTasks !! i with
        | None => None
        | Some current =>
            if JS.str_gt (versionStringFromTaskDef task) (version current)
            then Some (latestIndex, <[i := getTaskInstance task]> latestTasks)
            else Some (latestIndex, latestTasks)
        end
    | None => None
    end.

Fixpoint latest_loop (tasks : list TaskDefinition)
    (st : gmap string nat * list TaskInstance)
    : option (gmap string nat * list TaskInstance) :=
  match tasks with
  | [] => Some st
  | task :: rest =>
      match latest_step st task with
      | Some st => latest_loop rest st
      | None => None
      end
  end.

Definition latestTasks_of (tasks : list TaskDefinition)
    : option (list TaskInstance) :=
  snd <$> latest_loop tasks (∅, []).

(** [ensureLatestExist] up to its return. *)
Definition ensureLatestExist (w : World) : Q.state * World :=
  (Q.Pending, call CallGetTasks w).

(** What the callback given to [getTasks] leaves behind. *)
Record Listed : Type :=
  { listed_deferred : Q.state;
    listed_promises : list Q.state;
    listed_world : World;
    listed_completion : JS.completion }.

(** The callback given to [taskApi.getTasks]; [tasks] is [None] when the
    API passes [null] or [undefined] for the list. The callback does not
    return after rejecting: the loop over [tasks] and the call of
    [ensureTasksExist] follow in both cases. *)
Definition ensureLatestExist_listed (err : option string)
    (tasks : option (list TaskDefinition)) (deferred : Q.state)
    (w : World) : Listed :=
  let deferred :=
    match err with
    | Some e => Q.reject e deferred
    | None => deferred
    end in
  match tasks with
  | None =>
      {| listed_deferred := deferred; listed_promises := [];
         listed_world := w;
         listed_completion :=
           JS.Throw "TypeError: Cannot read property 'length'" |}
  | Some tasks =>
      match latestTasks_of tasks with
      | None =>
          {| listed_deferred := deferred; listed_promises := [];
             listed_world := w;
             listed_completion :=
               JS.Throw "TypeError: Cannot read property 'version'" |}
      | Some latestTasks =>
          let '(promises, w) := ensureTasksExist latestTasks w in
          {| listed_deferred := deferred; listed_promises := promises;
             listed_world := w; listed_completion := JS.Normal |}
      end
  end.

(** The two handlers attached to the promise of [ensureTasksExist]. *)
Definition ensureLatestExist_settled (all : Q.state) (deferred : Q.state)
    : Q.state :=
  match all with
  | Q.Fulfilled => Q.resolve deferred
  | Q.Rejected err => Q.reject err deferred
  | Q.Pending => deferred
  end.

(** What the loop of [ensureLatestExist] keeps true, [seen] being the part
    of the catalog it has read: the index of an id is the slot of the task
    with that id; every slot is indexed, comes from an entry read, and no
    entry read with its id has a version above its own; every id read is
    indexed. *)
Definition latest_inv (seen : list TaskDefinition)
    (st : gmap string nat * list TaskInstance) : Prop :=
  (∀ k i, st.1 !! k = Some i → ∃ t, st.2 !! i = Some t ∧ id t = k) ∧
  (∀ i t, st.2 !! i = Some t →
     st.1 !! id t = Some i ∧
     ∃ d, d ∈ seen ∧ t = getTaskInstance d ∧
          ∀ d', d' ∈ seen → def_id d' = id t →
                JS.str_gt (versionStringFromTaskDef d') (version t) = false) ∧
  (∀ d, d ∈ seen → is_Some (st.1 !! def_id d)).

(** The call with which [downloadTask] asks the task API for [task]. *)
Definition download_call (task : TaskInstance) : Call :=
  CallDownloadTask (id task) (version task) (getTaskPath task +:+ ".zip").

End Methods.

(** The archive paths of the downloads among [cs], in order. *)
Definition download_paths (cs : list Call) : list string :=
  omap (λ c, match c with
             | CallDownloadTask _ _ filePath => Some filePath
             | _ => None
             end) cs.

End TaskManager.

(** ** Sample surroundings, for the concrete runs below *)

Module Sample.

(** Modelled from the spec: the values of [cm.sysVars], [cm.agentVars] and
    [cm.buildVars] of [common.ts], under the names by which section 6 of
    the specification lists the variables read and written. *)
Definition names : Worker.VarNames :=
  {| Worker.sysVars_system := "system";
     Worker.sysVars_collectionId := "collectionId";
     Worker.sysVars_collectionUri := "collectionUri";
     Worker.sysVars_definitionId := "definitionId";
     Worker.agentVars_workingDirectory := "workingDirectory";
     Worker.agentVars_buildDirectory := "buildDirectory";
     Worker.buildVars_stagingDirectory := "stagingDirectory" |}.

(** Segments joined by [/]. *)
Definition join (segments : list string) : string :=
  String.concat "/" segments.

(** A stand-in for the digest that keeps its input readable. *)
Definition digest (s : string) : string := "sha256(" +:+ s +:+ ")".

(** The configuration is its work folder. *)
Definition worker : Worker.Platform :=
  {| Worker.IConfiguration := string;
     Worker.getWorkPath := λ workFolder, workFolder;
     Worker.cm := names;
     Worker.path_join := join;
     Worker.sha256_hex := digest |}.

Definition job (vars : list (string * string))
    (urls : option (list string))
    (connection : option Worker.SystemConnection) : Worker.JobRequestMessage :=
  {| Worker.jobName := "build";
     Worker.environment :=
       {| Worker.variables := list_to_map vars;
          Worker.endpoints := fmap (M := list) Worker.Build_Endpoint <$> urls;
          Worker.mask := None;
          Worker.systemConnection := connection |};
     Worker.authorization := {| Worker.serverUrl := "https://server" |} |}.

(** The version string of a catalog entry: major and minor number. *)
Definition versionString (task : TaskManager.TaskDefinition) : string :=
  pretty (TaskManager.major (TaskManager.def_version task)) +:+ "." +:+
  pretty (TaskManager.minor (TaskManager.def_version task)).

Definition manager : TaskManager.Platform :=
  {| TaskManager.taskFolder := "/work/tasks";
     TaskManager.path_resolve := join;
     TaskManager.versionStringFromTaskDef := versionString |}.

Definition task (i n v : string) : TaskManager.TaskInstance :=
  {| TaskManager.id := i; TaskManager.name := n; TaskManager.version := v |}.

Definition entry (i n : string) (ma mi : nat) : TaskManager.TaskDefinition :=
  {| TaskManager.def_id := i; TaskManager.def_name := n;
     TaskManager.def_version :=
       {| TaskManager.major := ma; TaskManager.minor := mi;
          TaskManager.patch := 0 |} |}.

Definition empty_world : TaskManager.World :=
  {| TaskManager.disk := ∅; TaskManager.calls := [] |}.

End Sample.

(** * Properties *)

(** ** Strings *)

Lemma string_app_assoc (a b c : string) : (a +:+ b) +:+ c = a +:+ b +:+ c.
Proof.
  induction a as [|x a IH]; [done|].
  change (String x ((a +:+ b) +:+ c) = String x (a +:+ b +:+ c)).
  by rewrite IH.
Qed.

Lemma str_gt_irrefl (a : string) : JS.str_gt a a = false.
Proof.
  unfold JS.str_gt. apply negb_false_iff, Is_true_true.
  change (String.le a a). done.
Qed.

Lemma str_gt_trans (a b c : string) :
  JS.str_gt a b = true → JS.str_gt b c = true → JS.str_gt a c = true.
Proof.
  unfold JS.str_gt. rewrite !negb_true_iff.
  intros Hab Hbc. apply not_true_iff_false. intros Hac.
  destruct (String.leb_total b a) as [Hba|Hab']; [|congruence].
  assert (String.le c b) as Hcb.
  { destruct (String.leb_total c b) as [?|?]; [by apply Is_true_true|congruence]. }
  assert (String.le a b) as Hle.
  { etrans; [apply Is_true_true, Hac|done]. }
  apply Is_true_true in Hle. congruence.
Qed.

Lemma string_app_nil_r (a : string) : a +:+ "" = a.
Proof.
  induction a as [|x a IH]; [done|].
  change (String x (a +:+ "") = String x a). by rewrite IH.
Qed.

Lemma string_length_app (a b : string) :
  String.length (a +:+ b) = String.length a + String.length b.
Proof.
  induction a as [|x a IH]; [done|].
  change (S (String.length (a +:+ b)) = S (String.length a + String.length b)).
  by rewrite IH.
Qed.

Lemma string_prefix_length (a b : string) :
  String.prefix a b = true → String.length a ≤ String.length b.
Proof.
  revert b. induction a as [|x a IH]; intros b; simpl; [lia|].
  destruct b as [|y b]; [done|]. simpl.
  destruct (Ascii.ascii_dec x y); [|done].
  intros Hp. apply IH in Hp. lia.
Qed.

(** A path is neither its own archive nor below it. *)
Lemma not_under_archive (p : string) :
  ¬ TaskManager.is_under (p +:+ ".zip") p.
Proof.
  unfold TaskManager.is_under. intros [Heq|Hpre].
  - apply (f_equal String.length) in Heq.
    rewrite string_length_app in Heq. simpl in Heq. lia.
  - apply string_prefix_length in Hpre.
    rewrite !string_length_app in Hpre. simpl in Hpre. lia.
Qed.

(** ** setVariables *)

Module SetVariablesFacts.
Import Worker.

Section Facts.

Context `{Platform}.

Lemma forEach_endpoint (eps : list Endpoint) (acc : string) :
  fold_left (λ hashInput endpoint,
               hashInput +:+ ":" +:+ endpoint_url endpoint) eps acc
  = acc +:+ foldr (λ url rest, ":" +:+ url +:+ rest) ""
                  (endpoint_url <$> eps).
Proof.
  revert acc. induction eps as [|e eps IH]; intros acc; simpl.
  - by rewrite string_app_nil_r.
  - rewrite IH. by rewrite !string_app_assoc.
Qed.

(** The loop over the endpoints builds the string the specification
    describes. *)
Lemma hashInput_by_spec (collId defId : option string)
    (job : JobRequestMessage) :
  hashInput collId defId (endpoints (environment job))
  = hashInput_spec (JS.to_str collId) (JS.to_str defId) (endpoint_urls job).
Proof.
  unfold hashInput, hashInput_spec, endpoint_urls.
  destruct (endpoints (environment job)) as [eps|]; simpl.
  - rewrite forEach_endpoint. by rewrite !string_app_assoc.
  - by rewrite !string_app_nil_r.
Qed.

Lemma after_collectionUri_other (job : JobRequestMessage) (k : string) :
  k ≠ sysVars_collectionUri cm →
  after_collectionUri job !! k = variables (environment job) !! k.
Proof.
  intros Hk. unfold after_collectionUri.
  destruct (negb _); [|done]. by rewrite lookup_insert_ne.
Qed.

Lemma after_collectionUri_kept (job : JobRequestMessage) :
  JS.truthy (variables (environment job) !! sysVars_collectionUri cm) = true →
  after_collectionUri job = variables (environment job).
Proof. intros Ht. unfold after_collectionUri. by rewrite Ht. Qed.

(** [setVariables] without a system name: it throws and has written the
    collection URI at most. *)
Lemma setVariables_without_system (job : JobRequestMessage)
    (config : IConfiguration) :
  variables (environment job) !! sysVars_system cm = None →
  setVariables job config
  = (with_variables (after_collectionUri job) job,
     JS.Throw "TypeError: Arguments to path.join must be strings").
Proof. intros Hsys. unfold setVariables. by rewrite Hsys. Qed.

(** [setVariables] with a system name: it returns and has written the
    three directory variables on top. *)
Lemma setVariables_with_system (job : JobRequestMessage)
    (config : IConfiguration) (sys : string) :
  variables (environment job) !! sysVars_system cm = Some sys →
  let workingFolder := getWorkPath config in
  let buildDirectory :=
    path_join
      [workingFolder; sys;
       sha256_hex
         (hashInput
            (variables (environment job) !! sysVars_collectionId cm)
            (after_collectionUri job !! sysVars_definitionId cm)
            (endpoints (environment job)))] in
  setVariables job config
  = (with_variables
       (<[buildVars_stagingDirectory cm := path_join [buildDirectory; "staging"]]>
          (<[agentVars_buildDirectory cm := buildDirectory]>
             (<[agentVars_workingDirectory cm := workingFolder]>
                (after_collectionUri job)))) job,
     JS.Normal).
Proof. intros Hsys. unfold setVariables. by rewrite Hsys. Qed.

(** C6, as amended. For every job whose variable map has the system
    variable, [setVariables] returns and leaves in [buildDirectory] the
    join of the working folder, the system name and the hex digest of the
    collection id, a colon, the definition id and then a colon and the URL
    of every endpoint in listed order, repeated URLs included; an absent id
    enters the input as the text [undefined]. *)
Theorem setVariables_buildDirectory (job : JobRequestMessage)
    (config : IConfiguration) (sys : string) :
  variables (environment job) !! sysVars_system cm = Some sys →
  sysVars_definitionId cm ≠ sysVars_collectionUri cm →
  agentVars_buildDirectory cm ≠ buildVars_stagingDirectory cm →
  (setVariables job config).2 = JS.Normal ∧
  variables (environment (setVariables job config).1)
    !! agentVars_buildDirectory cm
  = Some (path_join
            [getWorkPath config; sys;
             sha256_hex
               (hashInput_spec
                  (JS.to_str (variables (environment job)
                                !! sysVars_collectionId cm))
                  (JS.to_str (variables (environment job)
                                !! sysVars_definitionId cm))
                  (endpoint_urls job))]).
Proof.
  intros Hsys Hdef Hdirs.
  rewrite (setVariables_with_system job config sys Hsys). simpl.
  split; [done|].
  rewrite lookup_insert_ne by done. rewrite lookup_insert_eq.
  rewrite after_collectionUri_other by done.
  by rewrite hashInput_by_spec.
Qed.

(** C7. Two jobs that agree on the system variable, the collection id,
    the definition id, the URLs of their endpoints in order and the working
    folder end [setVariables] the same way, and when it returns
    [buildDirectory] holds the same value in both. *)
Theorem setVariables_deterministic (job1 job2 : JobRequestMessage)
    (config1 config2 : IConfiguration) :
  sysVars_definitionId cm ≠ sysVars_collectionUri cm →
  variables (environment job1) !! sysVars_system cm
    = variables (environment job2) !! sysVars_system cm →
  variables (environment job1) !! sysVars_collectionId cm
    = variables (environment job2) !! sysVars_collectionId cm →
  variables (environment job1) !! sysVars_definitionId cm
    = variables (environment job2) !! sysVars_definitionId cm →
  endpoint_urls job1 = endpoint_urls job2 →
  getWorkPath config1 = getWorkPath config2 →
  (setVariables job1 config1).2 = (setVariables job2 config2).2 ∧
  ((setVariables job1 config1).2 = JS.Normal →
   variables (environment (setVariables job1 config1).1)
     !! agentVars_buildDirectory cm
   = variables (environment (setVariables job2 config2).1)
     !! agentVars_buildDirectory cm).
Proof.
  intros Hne Hsys Hcoll Hdef Hurls Hwork.
  destruct (variables (environment job1) !! sysVars_system cm) as [sys|] eqn:H1.
  - symmetry in Hsys.
    rewrite (setVariables_with_system job1 config1 sys H1).
    rewrite (setVariables_with_system job2 config2 sys Hsys). simpl.
    split; [done|]. intros _.
    rewrite !hashInput_by_spec, !after_collectionUri_other by done.
    rewrite Hcoll, Hdef, Hurls, Hwork.
    destruct (decide (buildVars_stagingDirectory cm
                      = agentVars_buildDirectory cm)) as [->|Hsd].
    + by rewrite !lookup_insert_eq.
    + rewrite !(lookup_insert_ne _ (buildVars_stagingDirectory cm)) by done.
      by rewrite !lookup_insert_eq.
  - symmetry in Hsys.
    rewrite (setVariables_without_system job1 config1 H1).
    rewrite (setVariables_without_system job2 config2 Hsys). simpl.
    split; [done|]. discriminate.
Qed.

(** The fields of a job other than the variable map are left as they
    were. *)
Lemma setVariables_fields (job : JobRequestMessage) (config : IConfiguration) :
  let job' := (setVariables job config).1 in
  jobName job' = jobName job ∧
  endpoints (environment job') = endpoints (environment job) ∧
  mask (environment job') = mask (environment job) ∧
  systemConnection (environment job') = systemConnection (environment job) ∧
  authorization job' = authorization job.
Proof.
  destruct (variables (environment job) !! sysVars_system cm) as [sys|] eqn:H1.
  - by rewrite (setVariables_with_system job config sys H1).
  - by rewrite (setVariables_without_system job config H1).
Qed.

(** C10, as amended. [setVariables] writes no key of the variable map
    but the collection URI, [workingDirectory], [buildDirectory] and
    [stagingDirectory], the collection URI only when it was absent or
    empty before, and it leaves the other fields of the job as they
    were. *)
Theorem setVariables_frame (job : JobRequestMessage)
    (config : IConfiguration) (k : string) :
  k ≠ agentVars_workingDirectory cm →
  k ≠ agentVars_buildDirectory cm →
  k ≠ buildVars_stagingDirectory cm →
  (k = sysVars_collectionUri cm →
   JS.truthy (variables (environment job) !! k) = true) →
  let job' := (setVariables job config).1 in
  variables (environment job') !! k = variables (environment job) !! k ∧
  jobName job' = jobName job ∧
  endpoints (environment job') = endpoints (environment job) ∧
  mask (environment job') = mask (environment job) ∧
  systemConnection (environment job') = systemConnection (environment job) ∧
  authorization job' = authorization job.
Proof.
  intros Hwd Hbd Hsd Hcu job'. split; [|apply setVariables_fields].
  assert (after_collectionUri job !! k = variables (environment job) !! k)
    as Hafter.
  { destruct (decide (k = sysVars_collectionUri cm)) as [Heq|Hneq].
    - rewrite after_collectionUri_kept; [done|]. rewrite <- Heq. auto.
    - by apply after_collectionUri_other. }
  subst job'.
  destruct (variables (environment job) !! sysVars_system cm) as [sys|] eqn:H1.
  - rewrite (setVariables_with_system job config sys H1). simpl.
    by rewrite !lookup_insert_ne by done.
  - by rewrite (setVariables_without_system job config H1).
Qed.

End Facts.

End SetVariablesFacts.

(** *** Concrete jobs *)

Module SetVariablesRuns.
Import Worker.

(** A job with the same endpoint URL twice: the URL is hashed twice. *)
Lemma setVariables_buildDirectory_witness :
  (@setVariables Sample.worker
     (Sample.job [("system", "build"); ("collectionId", "c1");
                  ("definitionId", "7")]
                 (Some ["https://a"; "https://a"]) None) "/w").2
  = JS.Normal ∧
  variables (environment
    (@setVariables Sample.worker
       (Sample.job [("system", "build"); ("collectionId", "c1");
                    ("definitionId", "7")]
                   (Some ["https://a"; "https://a"]) None) "/w").1)
    !! "buildDirectory"
  = Some "/w/build/sha256(c1:7:https://a:https://a)".
Proof.
  apply (@SetVariablesFacts.setVariables_buildDirectory Sample.worker
           (Sample.job [("system", "build"); ("collectionId", "c1");
                        ("definitionId", "7")]
                       (Some ["https://a"; "https://a"]) None) "/w" "build").
  - vm_compute. reflexivity.
  - discriminate.
  - discriminate.
Defined.

(** C6 as stated fails for a job without the system variable:
    [path.join] throws, and [buildDirectory] is not written. *)
Lemma setVariables_buildDirectory_counterexample :
  (@setVariables Sample.worker (Sample.job [("collectionId", "c1")] None None)
                 "/w").2
  = JS.Throw "TypeError: Arguments to path.join must be strings" ∧
  variables (environment
    (@setVariables Sample.worker
       (Sample.job [("collectionId", "c1")] None None) "/w").1)
    !! "buildDirectory"
  = None.
Proof. split; vm_compute; reflexivity. Qed.

(** Two jobs that differ in name-independent parts only: another
    variable and the system connection. *)
Lemma setVariables_deterministic_witness :
  (@setVariables Sample.worker
     (Sample.job [("system", "build"); ("collectionId", "c1");
                  ("definitionId", "7"); ("other", "x")]
                 (Some ["https://a"]) None) "/w").2
  = (@setVariables Sample.worker
       (Sample.job [("system", "build"); ("collectionId", "c1");
                    ("definitionId", "7")]
                   (Some ["https://a"])
                   (Some {| connection_url := "https://tfs";
                            accessToken := None |})) "/w").2 ∧
  ((@setVariables Sample.worker
      (Sample.job [("system", "build"); ("collectionId", "c1");
                   ("definitionId", "7"); ("other", "x")]
                  (Some ["https://a"]) None) "/w").2 = JS.Normal →
   variables (environment
     (@setVariables Sample.worker
        (Sample.job [("system", "build"); ("collectionId", "c1");
                     ("definitionId", "7"); ("other", "x")]
                    (Some ["https://a"]) None) "/w").1)
     !! "buildDirectory"
   = variables (environment
       (@setVariables Sample.worker
          (Sample.job [("system", "build"); ("collectionId", "c1");
                       ("definitionId", "7")]
                      (Some ["https://a"])
                      (Some {| connection_url := "https://tfs";
                               accessToken := None |})) "/w").1)
       !! "buildDirectory").
Proof.
  apply (@SetVariablesFacts.setVariables_deterministic Sample.worker).
  - discriminate.
  - vm_compute. reflexivity.
  - vm_compute. reflexivity.
  - vm_compute. reflexivity.
  - reflexivity.
  - reflexivity.
Defined.

(** A collection URI that is set and not empty is kept. *)
Lemma setVariables_frame_witness :
  let job := Sample.job [("system", "build");
                         ("collectionUri", "https://tfs/c")] None None in
  let job' := (@setVariables Sample.worker job "/w").1 in
  variables (environment job') !! "collectionUri"
    = variables (environment job) !! "collectionUri" ∧
  jobName job' = jobName job ∧
  endpoints (environment job') = endpoints (environment job) ∧
  mask (environment job') = mask (environment job) ∧
  systemConnection (environment job') = systemConnection (environment job) ∧
  authorization job' = authorization job.
Proof.
  intros job.
  apply (@SetVariablesFacts.setVariables_frame Sample.worker job "/w"
           "collectionUri").
  - discriminate.
  - discriminate.
  - discriminate.
  - intros _. vm_compute. reflexivity.
Defined.

(** C10 as stated fails for a job whose collection URI is present and
    empty: the variable was not absent, and it is overwritten. *)
Lemma setVariables_frame_counterexample :
  let job := Sample.job [("system", "build"); ("collectionUri", "")]
                        None None in
  variables (environment job) !! "collectionUri" = Some "" ∧
  variables (environment (@setVariables Sample.worker job "/w").1)
    !! "collectionUri"
  = Some "https://server".
Proof. split; vm_compute; reflexivity. Qed.

End SetVariablesRuns.

(** ** run: finalize once, resolve after the drain *)

Module RunFacts.
Import Worker.

Section Facts.

Variable job_name : string.

Lemma run_job : run "job" = started.
Proof. reflexivity. Qed.

Lemma started_Phase : Phase started.
Proof. by apply Running. Qed.

Lemma on_JobAbandoned_Phase (s : State) :
  Phase s → Phase (on_JobAbandoned s).
Proof.
  intros Hs. unfold on_JobAbandoned.
  destruct Hs as [Hl Hf Hc Hfin Hr Hd|path op p hs Hl Hf Hc Hw Hfin Hr Hd
                 |path op p Hl Hf Hc Hp Hfin Hr Hd]; rewrite Hf; simpl.
  - apply (Finalizing _ ByAbandonment Drain Q.Pending [OnFin Drained]);
      simpl; rewrite ?Hc, ?Hfin; done.
  - by eapply Finalizing.
  - by eapply Terminated.
Qed.

Lemma on_EngineCompleted_Phase (err : option string) (result : TaskResult)
    (s : State) :
  Phase s → Phase (on_EngineCompleted job_name err result s).
Proof.
  intros Hs. unfold on_EngineCompleted.
  destruct Hs as [Hl Hf Hc Hfin Hr Hd|path op p hs Hl Hf Hc Hw Hfin Hr Hd
                 |path op p Hl Hf Hc Hp Hfin Hr Hd].
  - destruct err; simpl; rewrite Hf; simpl;
      (eapply (Finalizing _ ByCompletion (FinishJob result) Q.Pending);
       simpl; rewrite ?Hc, ?Hfin; [done|done|done|by left|done..]).
  - destruct err; simpl; rewrite Hf; simpl; by eapply Finalizing.
  - destruct err; simpl; rewrite Hf; simpl; by eapply Terminated.
Qed.

Lemma settle_Phase (i : nat) (err : option string) (s s' : State) :
  Phase s → settle i err s = Some s' → Phase s'.
Proof.
  intros Hs. unfold settle.
  destruct Hs as [Hl Hf Hc Hfin Hr Hd|path op p hs Hl Hf Hc Hw Hfin Hr Hd
                 |path op p Hl Hf Hc Hp Hfin Hr Hd]; rewrite Hc.
  - done.
  - destruct i as [|i]; simpl; [|done].
    destruct p; [|done..]. intros [= <-].
    eapply (Finalizing _ path op _ hs); simpl; rewrite ?Hc; try done.
    destruct path, op; simpl in *; try done.
    destruct Hw as [->|[? _]]; [by left|done].
  - destruct i as [|i]; simpl; [|done]. by destruct p.
Qed.

Lemma tick_Phase (i : nat) (s s' : State) :
  Phase s → tick job_name i s = Some s' → Phase s'.
Proof.
  intros Hs. unfold tick.
  destruct Hs as [Hl Hf Hc Hfin Hr Hd|path op p hs Hl Hf Hc Hw Hfin Hr Hd
                 |path op p Hl Hf Hc Hp Hfin Hr Hd]; rewrite Hc.
  - done.
  - destruct i as [|i]; simpl; [|done].
    destruct path, op; simpl in Hw; try done.
    + destruct Hw as [->|[Hp [->| ->]]].
      * destruct p as [| |reason]; [done| |]; intros [= <-];
          (eapply (Finalizing _ ByCompletion (FinishJob result)); simpl;
           rewrite ?Hc; simpl; [done|done|done| |done..];
           right; split; [done|by left]).
      * destruct p as [| |reason]; [done| |]; intros [= <-].
        -- eapply (Finalizing _ ByCompletion (FinishJob result)); simpl;
             rewrite ?Hc; simpl; [done|done|done| |done..].
           right; split; [done|by right].
        -- eapply (Finalizing _ ByCompletion (FinishJob result)); simpl;
             rewrite ?Hc; simpl; [done|done|done| |done..].
           right; split; [done|by right].
      * destruct p as [| |reason]; [done| |]; intros [= <-];
          by eapply (Terminated _ ByCompletion (FinishJob result)); simpl;
             rewrite ?Hc, ?Hr, ?Hd.
    + subst hs. destruct p as [| |reason]; [done| |]; intros [= <-];
        by eapply (Terminated _ ByAbandonment Drain); simpl; rewrite ?Hc, ?Hr, ?Hd.
  - destruct i as [|i]; simpl; done.
Qed.

Lemma step_Phase (e : Event) (s s' : State) :
  Phase s → step job_name e s = Some s' → Phase s'.
Proof.
  intros Hs. destruct e as [err result| |i err|i]; simpl.
  - destruct (listening s); [|done]. intros [= <-].
    by apply on_EngineCompleted_Phase.
  - destruct (listening s); [|done]. intros [= <-].
    by apply on_JobAbandoned_Phase.
  - by apply settle_Phase.
  - by apply tick_Phase.
Qed.

Lemma exec_Phase (events : list Event) (s s' : State) :
  Phase s → exec job_name events s = Some s' → Phase s'.
Proof.
  revert s. induction events as [|e events IH]; intros s Hs; simpl.
  - by intros [= <-].
  - destruct (step job_name e s) as [s1|] eqn:He; [|done].
    apply IH. by eapply step_Phase.
Qed.

(** A trigger that finds the flag set changes the log at most. *)
Lemma late_trigger_only_logs (e : Event) (s s' : State) :
  finishingJob s = true → is_trigger e = true →
  step job_name e s = Some s' → same_but_log s s'.
Proof.
  intros Hf He. destruct e as [err result| |i err|i]; try done; simpl.
  - destruct (listening s); [|done]. intros [= <-].
    unfold on_EngineCompleted. destruct err; simpl; by rewrite Hf.
  - destruct (listening s); [|done]. intros [= <-].
    unfold on_JobAbandoned. by rewrite Hf.
Qed.

Lemma Phase_finishingJob (s : State) :
  Phase s → finalized s ≠ [] → finishingJob s = true.
Proof. intros [Hl Hf Hc Hfin Hr Hd| |]; [by rewrite Hfin|done..]. Qed.

Lemma step_finalized (e : Event) (s s' : State) :
  Phase s → step job_name e s = Some s' →
  finalized s' = take 1 (finalized s ++ arrivals [e]).
Proof.
  intros Hs.
  assert (finalized s = take 1 (finalized s)) as Hone.
  { destruct Hs as [? ? ? Hfin|? ? ? ? ? ? ? ? Hfin|? ? ? ? ? ? ? Hfin];
      by rewrite Hfin. }
  destruct e as [err result| |i err|i]; simpl.
  - destruct (listening s); [|done]. intros [= <-].
    unfold on_EngineCompleted.
    destruct Hs as [? Hf ? Hfin|? ? ? ? ? Hf ? ? Hfin|? ? ? ? Hf ? ? Hfin];
      destruct err; simpl; rewrite Hf; simpl; by rewrite Hfin.
  - destruct (listening s); [|done]. intros [= <-].
    unfold on_JobAbandoned.
    destruct Hs as [? Hf ? Hfin|? ? ? ? ? Hf ? ? Hfin|? ? ? ? Hf ? ? Hfin];
      rewrite Hf; simpl; by rewrite Hfin.
  - unfold settle, arrivals. simpl. rewrite app_nil_r.
    repeat case_match; try done; by intros [= <-].
  - unfold tick, arrivals. simpl. rewrite app_nil_r.
    repeat case_match; try done; intros [= <-]; try done;
      unfold run_callback; repeat case_match; done.
Qed.

Lemma exec_finalized (events : list Event) (s s' : State) :
  Phase s → exec job_name events s = Some s' →
  finalized s' = take 1 (finalized s ++ arrivals events).
Proof.
  revert s. induction events as [|e events IH]; intros s Hs; simpl.
  - intros [= <-]. unfold arrivals. simpl. rewrite app_nil_r.
    destruct Hs as [? ? ? Hfin|? ? ? ? ? ? ? ? Hfin|? ? ? ? ? ? ? Hfin];
      by rewrite Hfin.
  - destruct (step job_name e s) as [s1|] eqn:He; [|done]. intros Hex.
    rewrite (IH s1 (step_Phase e s s1 Hs He) Hex).
    rewrite (step_finalized e s s1 Hs He).
    unfold arrivals at 1. simpl.
    destruct (finalized s) as [|? ?]; [|done].
    by destruct (path_of e).
Qed.

(** Runs the events of the goal from a state whose one chain is [Hc]
    and closes the goal once the run has ended. *)
Ltac run_to_end Hc Hr Hd :=
  eexists;
  (split; [by repeat constructor|]); (split; [simpl; lia|]);
  unfold exec, step, settle, tick; rewrite Hc; simpl;
  (split; [reflexivity|]); simpl; rewrite Hr, Hd;
  (split; [|done]); apply Forall_cons; by repeat split.

(** Once the flag is set, at most four further events, none of them a
    trigger, end the run: the operation settles if it has not yet, with
    the outcome [err], the handlers that wait take their turns, and the
    promise of [run] is fulfilled by one call of [deferred.resolve]. *)
Lemma Phase_can_finish (s : State) (err : option string) :
  Phase s → finishingJob s = true →
  ∃ rest s',
    Forall (follows err) rest ∧ length rest ≤ 4 ∧
    exec job_name rest s = Some s' ∧
    quiescent s' ∧ resolve_calls s' = 1 ∧ deferred s' = Q.Fulfilled.
Proof.
  intros [? Hf|path op p hs Hl Hf Hc Hw Hfin Hr Hd
         |path op p Hl Hf Hc Hp Hfin Hr Hd] Hflag.
  - congruence.
  - destruct path, op; simpl in Hw; try done.
    + destruct Hw as [->|[Hp [->| ->]]].
      * destruct p as [| |reason].
        -- exists [Settled 0 err; Tick 0; Tick 0; Tick 0].
           destruct err as [reason|]; run_to_end Hc Hr Hd.
        -- exists [Tick 0; Tick 0; Tick 0]. run_to_end Hc Hr Hd.
        -- exists [Tick 0; Tick 0; Tick 0]. run_to_end Hc Hr Hd.
      * exists [Tick 0; Tick 0].
        destruct p as [| |reason]; [done| |]; run_to_end Hc Hr Hd.
      * exists [Tick 0].
        destruct p as [| |reason]; [done| |]; run_to_end Hc Hr Hd.
    + subst hs. destruct p as [| |reason].
      * exists [Settled 0 err; Tick 0].
        destruct err as [reason|]; run_to_end Hc Hr Hd.
      * exists [Tick 0]. run_to_end Hc Hr Hd.
      * exists [Tick 0]. run_to_end Hc Hr Hd.
  - exists [], s. split; [constructor|]. split; [simpl; lia|].
    split; [done|]. split; [|done].
    unfold quiescent. rewrite Hc. apply Forall_cons. by repeat split.
Qed.

(** C1. Whatever events follow the return of [run] for a job message,
    once a trigger has arrived exactly one guarded block has run, that of
    the trigger that came first; [deferred.resolve] is called at most once,
    and exactly once when nothing is outstanding any more; a trigger that
    comes now changes the log at most; and from where the run stands, at
    most four further events, none of them a trigger, bring it to the
    point where nothing is outstanding and the promise is fulfilled by its
    one resolve, whether the operation, if it has not settled yet, then
    succeeds or fails. *)
Theorem finalize_exactly_once (events : list Event) (path : FinalizePath)
    (s : State) :
  exec job_name events (run "job") = Some s →
  head (arrivals events) = Some path →
  finalized s = [path] ∧
  resolve_calls s ≤ 1 ∧
  (quiescent s → resolve_calls s = 1 ∧ deferred s = Q.Fulfilled) ∧
  (∀ e s', is_trigger e = true → step job_name e s = Some s' →
           same_but_log s s') ∧
  (∀ err : option string, ∃ rest s',
     Forall (follows err) rest ∧ length rest ≤ 4 ∧
     exec job_name rest s = Some s' ∧
     quiescent s' ∧ resolve_calls s' = 1 ∧ deferred s' = Q.Fulfilled).
Proof.
  rewrite run_job. intros Hex Hfirst.
  pose proof (exec_Phase events started s started_Phase Hex) as Hs.
  pose proof (exec_finalized events started s started_Phase Hex) as Hfin.
  simpl in Hfin.
  assert (finalized s = [path]) as Hpath.
  { rewrite Hfin. destruct (arrivals events) as [|p ps]; simplify_eq/=. done. }
  split; [done|]. split; [|split].
  - destruct Hs as [? ? ? ? Hr|? ? ? ? ? ? ? ? ? Hr|? ? ? ? ? ? ? ? Hr];
      rewrite Hr; lia.
  - intros Hq.
    destruct Hs as [? ? ? Hnone|p0 op p hs ? ? Hc Hw|? ? ? ? ? ? ? ? Hr Hd].
    + by rewrite Hnone in Hpath.
    + unfold quiescent in Hq. rewrite Hc in Hq.
      apply Forall_cons in Hq as [[_ Hhs] _]. simpl in Hhs. subst hs.
      destruct p0, op; simpl in Hw; try done.
      by destruct Hw as [?|[_ [?|?]]].
    + done.
  - split.
    + intros e s' He Hstep.
      apply (late_trigger_only_logs e s s'); [|done..].
      apply Phase_finishingJob; [done|]. by rewrite Hpath.
    + intros err. apply Phase_can_finish; [done|].
      apply Phase_finishingJob; [done|]. by rewrite Hpath.
Qed.


Lemma step_unsettled (e : Event) (s s' : State) :
  unsettled s → step job_name e s = Some s' →
  unsettled s' ∨ ∃ i err c, e = Settled i err ∧ chains s !! i = Some c ∧
                            promise c = Q.Pending.
Proof.
  intros (Hd & Hr & Hc). destruct e as [err result| |i err|i]; simpl.
  - destruct (listening s); [|done]. intros [= <-]. left.
    unfold on_EngineCompleted, unsettled.
    destruct err; simpl; destruct (finishingJob s); simpl;
      repeat split; try done; apply Forall_app; split; try done;
      by repeat constructor.
  - destruct (listening s); [|done]. intros [= <-]. left.
    unfold on_JobAbandoned, unsettled.
    destruct (finishingJob s); simpl;
      repeat split; try done; apply Forall_app; split; try done;
      by repeat constructor.
  - unfold settle. destruct (chains s !! i) as [[op p hs]|] eqn:Hi; [|done].
    destruct p; [|done..]. intros _. right.
    by exists i, err, (Build_Chain op Q.Pending hs).
  - unfold tick. destruct (chains s !! i) as [[op p hs]|] eqn:Hi; [|done].
    rewrite Forall_lookup in Hc. specialize (Hc i _ Hi). simpl in Hc. subst p.
    by destruct hs.
Qed.

Lemma exec_unsettled (events : list Event) (s s' : State) :
  unsettled s → exec job_name events s = Some s' →
  deferred s' ≠ Q.Pending →
  ∃ before i err after s1 c,
    events = before ++ Settled i err :: after ∧
    exec job_name before s = Some s1 ∧
    chains s1 !! i = Some c ∧ promise c = Q.Pending ∧
    deferred s1 = Q.Pending ∧ resolve_calls s1 = 0.
Proof.
  revert s. induction events as [|e events IH]; intros s Hs; simpl.
  - intros [= <-] Hd. by destruct Hs as [? _].
  - destruct (step job_name e s) as [s1|] eqn:He; [|done]. intros Hex Hd.
    destruct (step_unsettled e s s1 Hs He) as [Hs1|(i & err & c & -> & Hi & Hp)].
    + destruct (IH s1 Hs1 Hex Hd)
        as (before & i & err & after & s2 & c & -> & Hb & Hi & Hp & Hd2 & Hr2).
      exists (e :: before), i, err, after, s2, c. simpl. rewrite He.
      by repeat split.
    + exists [], i, err, events, s, c. destruct Hs as (? & ? & _).
      by repeat split.
Qed.

(** C2. Whenever the promise that [run] returned for a job message is
    no longer pending, an operation of the finalize step, [drain] on the
    abandonment path and [finishJob] on the completion path, has settled
    before, with either outcome, and at the moment it settled the promise
    of [run] was still pending and [deferred.resolve] had not been
    called. *)
Theorem resolved_only_after_drain (events : list Event) (s : State) :
  exec job_name events (run "job") = Some s →
  deferred s ≠ Q.Pending →
  ∃ before i err after s1 c,
    events = before ++ Settled i err :: after ∧
    exec job_name before (run "job") = Some s1 ∧
    chains s1 !! i = Some c ∧ promise c = Q.Pending ∧
    deferred s1 = Q.Pending ∧ resolve_calls s1 = 0.
Proof.
  rewrite run_job. apply exec_unsettled. by repeat split.
Qed.

End Facts.

End RunFacts.

(** *** Concrete runs *)

Module RunTraces.
Import Worker.

(** The engine completes and the server abandons the job while
    [finishJob] is in flight: the completion path alone has run, and the
    run can go on to its end whether [finishJob] succeeds or fails. *)
Lemma finalize_exactly_once_witness :
  ∃ s,
    exec "build" [EngineCompleted None 0; JobAbandoned] (run "job")
      = Some s ∧
    (finalized s = [ByCompletion] ∧
     resolve_calls s ≤ 1 ∧
     (quiescent s → resolve_calls s = 1 ∧ deferred s = Q.Fulfilled) ∧
     (∀ e s', is_trigger e = true → step "build" e s = Some s' →
              same_but_log s s') ∧
     (∀ err : option string, ∃ rest s',
        Forall (follows err) rest ∧ length rest ≤ 4 ∧
        exec "build" rest s = Some s' ∧
        quiescent s' ∧ resolve_calls s' = 1 ∧ deferred s' = Q.Fulfilled)).
Proof.
  eexists. split.
  - vm_compute. reflexivity.
  - apply (RunFacts.finalize_exactly_once "build"
             [EngineCompleted None 0; JobAbandoned] ByCompletion).
    + vm_compute. reflexivity.
    + reflexivity.
Defined.

(** The same up to the end: [finishJob] succeeds and its three handlers
    run. *)
Example completed_then_abandoned :
  ∃ s,
    exec "build"
         [EngineCompleted None 0; JobAbandoned; Settled 0 None;
          Tick 0; Tick 0; Tick 0] (run "job") = Some s ∧
    finalized s = [ByCompletion] ∧ resolve_calls s = 1 ∧
    deferred s = Q.Fulfilled ∧ quiescent s.
Proof.
  eexists. split; [vm_compute; reflexivity|].
  repeat split. apply Forall_cons. by repeat split.
Qed.

(** The server abandons the job, the drain fails, its handler runs. *)
Lemma resolved_only_after_drain_witness :
  ∃ before i err after s1 c,
    [JobAbandoned; Settled 0 (Some "ECONNRESET"); Tick 0]
      = before ++ Settled i err :: after ∧
    exec "build" before (run "job") = Some s1 ∧
    chains s1 !! i = Some c ∧ promise c = Q.Pending ∧
    deferred s1 = Q.Pending ∧ resolve_calls s1 = 0.
Proof.
  eapply (RunFacts.resolved_only_after_drain "build"
            [JobAbandoned; Settled 0 (Some "ECONNRESET"); Tick 0]).
  - vm_compute. reflexivity.
  - vm_compute. discriminate.
Defined.

(** The abandonment arrives first and the engine completes later with an
    error: the abandonment path alone runs, and one resolve is made. *)
Example abandoned_then_completed :
  ∃ s,
    exec "build"
         [JobAbandoned; EngineCompleted (Some "failed") 2; Settled 0 None;
          Tick 0] (run "job") = Some s ∧
    finalized s = [ByAbandonment] ∧ resolve_calls s = 1 ∧
    deferred s = Q.Fulfilled ∧
    log s = [Error "Job abandoned by the server.";
             TraceCallback "job.run"; Status "Job Completed: build";
             Error "Error: failed"; TraceWrite "Service channel drained"].
Proof. eexists. split; [vm_compute; reflexivity|]. by repeat split. Qed.

(** Only the abandonment arrives. *)
Example abandoned_alone :
  ∃ s,
    exec "build" [JobAbandoned; Settled 0 None; Tick 0] (run "job")
      = Some s ∧
    finalized s = [ByAbandonment] ∧ resolve_calls s = 1.
Proof. eexists. split; [vm_compute; reflexivity|]. by repeat split. Qed.

(** A message of another kind is resolved at once and takes no event. *)
Example other_message :
  deferred (run "ping") = Q.Fulfilled ∧
  step "build" JobAbandoned (run "ping") = None.
Proof. split; vm_compute; reflexivity. Qed.

End RunTraces.

(** ** The task bundle cache *)

Module TaskManagerFacts.
Import TaskManager.

Section Facts.

Context `{Platform}.

Lemma not_in_rm_rf (p q : string) (d : gset string) :
  is_under p q → q ∉ rm_rf p d.
Proof. unfold rm_rf. rewrite elem_of_filter. tauto. Qed.

Lemma rm_rf_subseteq (p : string) (d : gset string) : rm_rf p d ⊆ d.
Proof. unfold rm_rf. intros q. rewrite elem_of_filter. tauto. Qed.

Lemma is_under_refl (p : string) : is_under p p.
Proof. by left. Qed.

(** **** ensureTaskExists *)

(** C9. When the bundle directory of a task is on disk,
    [ensureTaskExists] returns a fulfilled promise, leaves the disk as it
    is and makes no call but the one that is counted for itself; so two
    calls in a row make no network call. *)
Theorem ensureTaskExists_present (task : TaskInstance) (w : World) :
  getTaskPath task ∈ disk w →
  ensureTaskExists task w = (Q.Fulfilled, call (CallEnsureTaskExists task) w) ∧
  disk (ensureTaskExists task w).2 = disk w ∧
  filter (λ c, is_network c = true) (calls (ensureTaskExists task w).2)
    = filter (λ c, is_network c = true) (calls w) ∧
  (ensureTaskExists task (ensureTaskExists task w).2).1 = Q.Fulfilled ∧
  filter (λ c, is_network c = true)
         (calls (ensureTaskExists task (ensureTaskExists task w).2).2)
    = filter (λ c, is_network c = true) (calls w).
Proof.
  intros Hin.
  assert (∀ w0, getTaskPath task ∈ disk w0 →
                ensureTaskExists task w0
                = (Q.Fulfilled, call (CallEnsureTaskExists task) w0)) as Hcall.
  { intros w0 Hw0. unfold ensureTaskExists, hasTask, existsSync. simpl.
    by rewrite bool_decide_true. }
  rewrite !Hcall by done. simpl.
  rewrite !filter_app. simpl. rewrite !app_nil_r. done.
Qed.

(** **** ensureTasksExist *)

Lemma ensureTaskExists_calls (task : TaskInstance) (w : World) :
  filter (λ c, is_ensure c = true) (calls (ensureTaskExists task w).2)
  = filter (λ c, is_ensure c = true) (calls w) ++ [CallEnsureTaskExists task].
Proof.
  unfold ensureTaskExists, downloadTask.
  destruct (negb _); simpl; rewrite !filter_app; simpl;
    by rewrite ?app_nil_r.
Qed.

Lemma map_ensureTaskExists_calls (tasks : list TaskInstance) (w : World) :
  filter (λ c, is_ensure c = true) (calls (map_ensureTaskExists tasks w).2)
  = filter (λ c, is_ensure c = true) (calls w)
      ++ (CallEnsureTaskExists <$> tasks).
Proof.
  revert w. induction tasks as [|task tasks IH]; intros w; simpl.
  - by rewrite app_nil_r.
  - pose proof (ensureTaskExists_calls task w) as Hone.
    destruct (ensureTaskExists task w) as [p w1]. simpl in Hone.
    specialize (IH w1).
    destruct (map_ensureTaskExists tasks w1) as [ps w2]. simpl in *.
    rewrite IH, Hone. by rewrite <- app_assoc.
Qed.

(** X16. [ensureTasksExist] calls [ensureTaskExists] once for every
    element of the list it is given, in listed order, repeated elements
    included. *)
Lemma ensureTasksExist_calls_every_task (tasks : list TaskInstance)
    (w : World) :
  filter (λ c, is_ensure c = true) (calls (ensureTasksExist tasks w).2)
  = filter (λ c, is_ensure c = true) (calls w)
      ++ (CallEnsureTaskExists <$> tasks).
Proof.
  unfold ensureTasksExist. rewrite map_ensureTaskExists_calls. simpl.
  rewrite filter_app. simpl. by rewrite app_nil_r.
Qed.

(** **** downloadTask *)

(** X17. When the extraction reports an error, whatever the download
    reported, nothing is left at or below the bundle directory, the
    archive is gone and the promise is rejected, with the error of the
    download when there was one. *)
Lemma downloadTask_extract_error (task : TaskInstance) (dl : DownloadReply)
    (ex : ExtractReply) (w : World) (e : string) :
  extract_err ex = Some e →
  (downloadTask_run task dl ex w).1
    = Q.Rejected (default e (download_err dl)) ∧
  (∀ q, is_under (getTaskPath task) q →
        q ∉ disk (downloadTask_run task dl ex w).2) ∧
  getTaskPath task +:+ ".zip" ∉ disk (downloadTask_run task dl ex w).2.
Proof.
  intros Hex. unfold downloadTask_run, downloadTask, downloadTask_downloaded,
    downloadTask_extracted. rewrite Hex. simpl. split; [|split].
  - by destruct (download_err dl).
  - intros q Hq Hin. apply rm_rf_subseteq in Hin.
    by apply not_in_rm_rf in Hin.
  - apply not_in_rm_rf, is_under_refl.
Qed.

(** X18. A failed download always ends in a promise rejected with the
    error of the download, whatever the extraction that follows reports. *)
Lemma downloadTask_download_error (task : TaskInstance) (dl : DownloadReply)
    (ex : ExtractReply) (w : World) (e : string) :
  download_err dl = Some e →
  (downloadTask_run task dl ex w).1 = Q.Rejected e.
Proof.
  intros Hdl. unfold downloadTask_run, downloadTask, downloadTask_downloaded,
    downloadTask_extracted. rewrite Hdl. simpl.
  by destruct (extract_err ex).
Qed.

(** When the download fails and the extraction that is started all the
    same reports no error, the bundle directory stays. *)
Lemma downloadTask_download_error_only (task : TaskInstance)
    (dl : DownloadReply) (ex : ExtractReply) (w : World) :
  extract_err ex = None →
  getTaskPath task ∈ disk (downloadTask_run task dl ex w).2.
Proof.
  intros Hex. unfold downloadTask_run, downloadTask, downloadTask_downloaded,
    downloadTask_extracted. rewrite Hex. simpl.
  unfold rm_rf. rewrite elem_of_filter. split.
  - apply not_under_archive.
  - unfold extracted, downloaded, mkdir_p.
    destruct (download_wrote dl); set_solver.
Qed.

(** **** ensureLatestExist *)

Lemma latest_step_inv (seen : list TaskDefinition)
    (st : gmap string nat * list TaskInstance) (task : TaskDefinition) :
  def_id task ∉ JS.Object_prototype →
  latest_inv seen st →
  ∃ st', latest_step st task = Some st' ∧ latest_inv (seen ++ [task]) st'.
Proof.
  destruct st as [latestIndex latestTasks].
  intros Hown (Hidx & Hslot & Hseen). simpl in *.
  unfold latest_step, JS.has_property.
  rewrite (bool_decide_false (def_id task ∈ JS.Object_prototype)) by done.
  rewrite orb_false_r.
  destruct (latestIndex !! def_id task) as [i|] eqn:Hi.
  - rewrite bool_decide_true by eauto. simpl.
    destruct (Hidx _ _ Hi) as (current & Hcur & Hid). rewrite Hcur.
    pose proof (Hslot _ _ Hcur) as (_ & d0 & Hd0 & Heq0 & Hmax0).
    destruct (JS.str_gt (versionStringFromTaskDef task) (version current))
      eqn:Hgt.
    + eexists. split; [done|]. split; [|split]; simpl.
      * intros k j Hk. destruct (decide (j = i)) as [->|Hne].
        -- exists (getTaskInstance task).
           rewrite list_lookup_insert_eq by by eapply lookup_lt_Some.
           split; [done|]. simpl.
           destruct (Hidx _ _ Hk) as (t & Ht & Hkt). congruence.
        -- rewrite list_lookup_insert_ne by done. eauto.
      * intros j t Hj. destruct (decide (j = i)) as [->|Hne].
        -- rewrite list_lookup_insert_eq in Hj by by eapply lookup_lt_Some.
           injection Hj as <-. simpl. split; [done|].
           exists task.
           split; [apply elem_of_app; right; by apply list_elem_of_singleton|].
           split; [done|].
           intros d' Hd' Hsame. apply elem_of_app in Hd' as [Hd'|Hd'].
           ++ destruct (JS.str_gt (versionStringFromTaskDef d')
                                  (versionStringFromTaskDef task)) eqn:Hd; [|done].
              rewrite <- (Hmax0 d' Hd' ltac:(congruence)). symmetry.
              by apply (str_gt_trans _ (versionStringFromTaskDef task)).
           ++ apply list_elem_of_singleton in Hd' as ->. apply str_gt_irrefl.
        -- rewrite list_lookup_insert_ne in Hj by done.
           pose proof (Hslot _ _ Hj) as (Hjt & d & Hd & Heq & Hmax).
           split; [done|]. exists d. split; [apply elem_of_app; by left|]. split; [done|].
           intros d' Hd' Hsame. apply elem_of_app in Hd' as [Hd'|Hd']; [eauto|].
           apply list_elem_of_singleton in Hd' as ->. congruence.
      * intros d Hd. apply elem_of_app in Hd as [Hd|Hd]; [eauto|].
        apply list_elem_of_singleton in Hd as ->. by rewrite Hi.
    + eexists. split; [done|]. split; [|split]; simpl.
      * done.
      * intros j t Hj.
        pose proof (Hslot _ _ Hj) as (Hjt & d & Hd & Heq & Hmax).
        split; [done|]. exists d. split; [apply elem_of_app; by left|]. split; [done|].
        intros d' Hd' Hsame. apply elem_of_app in Hd' as [Hd'|Hd']; [eauto|].
        apply list_elem_of_singleton in Hd' as ->.
        assert (j = i) as -> by congruence.
        by assert (t = current) as -> by congruence.
      * intros d Hd. apply elem_of_app in Hd as [Hd|Hd]; [eauto|].
        apply list_elem_of_singleton in Hd as ->. by rewrite Hi.
  - rewrite bool_decide_false by (by intros [? ?]). simpl.
    eexists. split; [done|].
    rewrite length_app. simpl.
    replace (length latestTasks + 1 - 1) with (length latestTasks) by lia.
    split; [|split]; simpl.
    + intros k j Hk. destruct (decide (k = def_id task)) as [->|Hne].
      * rewrite lookup_insert_eq in Hk. injection Hk as <-.
        exists (getTaskInstance task). split; [|done].
        by rewrite lookup_app_r, Nat.sub_diag.
      * rewrite lookup_insert_ne in Hk by done.
        destruct (Hidx _ _ Hk) as (t & Ht & Hkt).
        exists t. split; [|done]. by apply lookup_app_l_Some.
    + intros j t Hj. apply lookup_app_Some in Hj as [Hj|[Hlen Hj]].
      * pose proof (Hslot _ _ Hj) as (Hjt & d & Hd & Heq & Hmax).
        assert (id t ≠ def_id task) as Hne by congruence.
        split; [by rewrite lookup_insert_ne|].
        exists d. split; [apply elem_of_app; by left|]. split; [done|].
        intros d' Hd' Hsame. apply elem_of_app in Hd' as [Hd'|Hd']; [eauto|].
        apply list_elem_of_singleton in Hd' as ->. congruence.
      * destruct (j - length latestTasks) as [|n] eqn:Hn; [|done].
        simpl in Hj. injection Hj as <-. simpl.
        assert (j = length latestTasks) as -> by lia.
        split; [by rewrite lookup_insert_eq|].
        exists task.
        split; [apply elem_of_app; right; by apply list_elem_of_singleton|].
        split; [done|].
        intros d' Hd' Hsame. apply elem_of_app in Hd' as [Hd'|Hd'].
        -- destruct (Hseen d' Hd') as [? Hsome]. congruence.
        -- apply list_elem_of_singleton in Hd' as ->. apply str_gt_irrefl.
    + intros d Hd. apply elem_of_app in Hd as [Hd|Hd].
      * destruct (decide (def_id d = def_id task)) as [->|Hne].
        -- by rewrite lookup_insert_eq.
        -- rewrite lookup_insert_ne by done. eauto.
      * apply list_elem_of_singleton in Hd as ->. by rewrite lookup_insert_eq.
Qed.

Lemma latest_loop_inv (tasks seen : list TaskDefinition)
    (st : gmap string nat * list TaskInstance) :
  Forall (λ d, def_id d ∉ JS.Object_prototype) tasks →
  latest_inv seen st →
  ∃ st', latest_loop tasks st = Some st' ∧ latest_inv (seen ++ tasks) st'.
Proof.
  revert seen st.
  induction tasks as [|task tasks IH]; intros seen st Hown Hst; simpl.
  - exists st. by rewrite app_nil_r.
  - apply Forall_cons in Hown as [Hown1 Hown].
    destruct (latest_step_inv seen st task Hown1 Hst) as (st1 & -> & Hst1).
    destruct (IH _ _ Hown Hst1) as (st' & Hloop & Hst').
    exists st'. split; [done|]. by rewrite <- app_assoc in Hst'.
Qed.

Lemma latest_inv_start : latest_inv [] (∅, []).
Proof.
  split; [|split]; simpl.
  - intros k i Hk. by rewrite lookup_empty in Hk.
  - intros i t Hi. by rewrite lookup_nil in Hi.
  - intros d Hd. by apply elem_of_nil in Hd.
Qed.

Lemma map_ensureTaskExists_appends (tasks : list TaskInstance) (w : World) :
  ∃ made, calls (map_ensureTaskExists tasks w).2 = calls w ++ made.
Proof.
  revert w. induction tasks as [|task tasks IH]; intros w; simpl.
  - exists []. by rewrite app_nil_r.
  - assert (∃ one, calls (ensureTaskExists task w).2 = calls w ++ one)
      as [one Hone].
    { unfold ensureTaskExists, downloadTask.
      destruct (negb _); simpl; [|by eexists].
      eexists. by rewrite <- app_assoc. }
    destruct (ensureTaskExists task w) as [p w1]. simpl in Hone.
    destruct (IH w1) as [made Hmade].
    destruct (map_ensureTaskExists tasks w1) as [ps w2]. simpl in *.
    exists (one ++ made). by rewrite Hmade, Hone, <- app_assoc.
Qed.

(** X20. For every catalog none of whose ids is a name inherited
    from [Object.prototype], the loop of [ensureLatestExist]
    ends without an exception and leaves one task per id of the catalog,
    built from an entry above whose version string no entry with that id
    lies; the callback then calls [ensureTasksExist] on exactly that list,
    and neither settles the deferred nor throws. *)
Theorem ensureLatestExist_latest (tasks : list TaskDefinition)
    (deferred : Q.state) (w : World) :
  Forall (λ d, def_id d ∉ JS.Object_prototype) tasks →
  ∃ latest,
    latestTasks_of tasks = Some latest ∧
    NoDup (id <$> latest) ∧
    (∀ d, d ∈ tasks → ∃ t, t ∈ latest ∧ id t = def_id d) ∧
    (∀ t, t ∈ latest →
       ∃ d, d ∈ tasks ∧ t = getTaskInstance d ∧
            ∀ d', d' ∈ tasks → def_id d' = id t →
                  JS.str_gt (versionStringFromTaskDef d') (version t) = false) ∧
    listed_completion (ensureLatestExist_listed None (Some tasks) deferred w)
      = JS.Normal ∧
    listed_deferred (ensureLatestExist_listed None (Some tasks) deferred w)
      = deferred ∧
    (listed_promises (ensureLatestExist_listed None (Some tasks) deferred w),
     listed_world (ensureLatestExist_listed None (Some tasks) deferred w))
      = ensureTasksExist latest w ∧
    ∃ made,
      calls (listed_world
               (ensureLatestExist_listed None (Some tasks) deferred w))
      = calls w ++ CallEnsureTasksExist latest :: made.
Proof.
  intros Hown.
  destruct (latest_loop_inv tasks [] (∅, []) Hown latest_inv_start)
    as ([latestIndex latest] & Hloop & Hidx & Hslot & Hseen).
  simpl in *. exists latest.
  assert (latestTasks_of tasks = Some latest) as Hlatest.
  { unfold latestTasks_of. by rewrite Hloop. }
  split; [done|]. split; [|split; [|split]].
  - apply NoDup_alt. intros i j k Hi Hj.
    rewrite list_lookup_fmap in Hi, Hj.
    destruct (latest !! i) as [ti|] eqn:Hti; [|done].
    destruct (latest !! j) as [tj|] eqn:Htj; [|done].
    simpl in *. injection Hi as Hi. injection Hj as Hj.
    pose proof (Hslot _ _ Hti) as [Hili _].
    pose proof (Hslot _ _ Htj) as [Hjlj _].
    congruence.
  - intros d Hd. destruct (Hseen d Hd) as [i Hi].
    destruct (Hidx _ _ Hi) as (t & Ht & Hid).
    exists t. split; [|done]. by eapply list_elem_of_lookup_2.
  - intros t Ht. apply list_elem_of_lookup in Ht as [i Hi].
    pose proof (Hslot _ _ Hi) as [_ Hfrom]. done.
  - unfold ensureLatestExist_listed. rewrite Hlatest.
    destruct (ensureTasksExist latest w) as [promises w'] eqn:Hall.
    simpl. repeat split.
    unfold ensureTasksExist in Hall.
    destruct (map_ensureTaskExists_appends latest
                (call (CallEnsureTasksExist latest) w)) as [made Hmade].
    rewrite Hall in Hmade. simpl in Hmade.
    exists made. by rewrite Hmade, <- app_assoc.
Qed.

(** X19. When [getTasks] reports an error the promise is rejected with
    it, whatever list comes along, and stays so however the calls that
    follow end. *)
Lemma ensureLatestExist_error_rejects (e : string)
    (tasks : option (list TaskDefinition)) (w : World) (all : Q.state) :
  listed_deferred (ensureLatestExist_listed (Some e) tasks Q.Pending w)
  = Q.Rejected e ∧
  ensureLatestExist_settled all
    (listed_deferred (ensureLatestExist_listed (Some e) tasks Q.Pending w))
  = Q.Rejected e.
Proof.
  assert (listed_deferred
            (ensureLatestExist_listed (Some e) tasks Q.Pending w)
          = Q.Rejected e) as ->.
  { unfold ensureLatestExist_listed. destruct tasks as [tasks|]; [|done].
    destruct (latestTasks_of tasks); [|done].
    by destruct (ensureTasksExist _ _). }
  by destruct all.
Qed.

(** When the error comes without a list, reading the length of the list
    throws: no ensure call is made. *)
Lemma ensureLatestExist_error_without_list (e : string) (w : World) :
  listed_world (ensureLatestExist_listed (Some e) None Q.Pending w) = w ∧
  listed_completion (ensureLatestExist_listed (Some e) None Q.Pending w)
  = JS.Throw "TypeError: Cannot read property 'length'".
Proof. done. Qed.

(** When the error comes with a list, the list is processed as if there
    had been no error. *)
Lemma ensureLatestExist_error_with_list (e : string)
    (tasks : list TaskDefinition) (w : World) :
  listed_world (ensureLatestExist_listed (Some e) (Some tasks) Q.Pending w)
  = listed_world (ensureLatestExist_listed None (Some tasks) Q.Pending w) ∧
  listed_promises (ensureLatestExist_listed (Some e) (Some tasks) Q.Pending w)
  = listed_promises (ensureLatestExist_listed None (Some tasks) Q.Pending w).
Proof.
  unfold ensureLatestExist_listed.
  destruct (latestTasks_of tasks); [|done].
  by destruct (ensureTasksExist _ _).
Qed.

End Facts.

End TaskManagerFacts.

(** *** Concrete runs *)

Module TaskManagerRuns.
Import TaskManager.

(** The bundle of a task is on disk: two calls in a row download
    nothing. *)
Lemma ensureTaskExists_present_witness :
  let task := Sample.task "A" "a" "1.0" in
  let w := {| disk := {["/work/tasks/a/1.0"]}; calls := [] |} in
  @ensureTaskExists Sample.manager task w
    = (Q.Fulfilled, call (CallEnsureTaskExists task) w) ∧
  disk (@ensureTaskExists Sample.manager task w).2 = disk w ∧
  filter (λ c, is_network c = true)
         (calls (@ensureTaskExists Sample.manager task w).2)
    = filter (λ c, is_network c = true) (calls w) ∧
  (@ensureTaskExists Sample.manager task
     (@ensureTaskExists Sample.manager task w).2).1 = Q.Fulfilled ∧
  filter (λ c, is_network c = true)
         (calls (@ensureTaskExists Sample.manager task
                   (@ensureTaskExists Sample.manager task w).2).2)
    = filter (λ c, is_network c = true) (calls w).
Proof.
  intros task w.
  apply (@TaskManagerFacts.ensureTaskExists_present Sample.manager task w).
  vm_compute. set_solver.
Defined.

(** C3 fails on the code: a list that names the same task twice. The
    bookkeeping finds one unique task, and [ensureTaskExists] is called
    twice all the same. The second call finds the directory that the first
    has just made, so that one download is started. *)
Lemma ensureTasksExist_repeated_task :
  let task := Sample.task "A" "a" "1.0" in
  let w := (@ensureTasksExist Sample.manager [task; task]
              Sample.empty_world).2 in
  @uniqueTasks_of [task; task] = [task] ∧
  filter (λ c, is_ensure c = true) (calls w)
    = [CallEnsureTaskExists task; CallEnsureTaskExists task] ∧
  filter (λ c, is_download c = true) (calls w)
    = [CallDownloadTask "A" "1.0" "/work/tasks/a/1.0.zip"].
Proof. repeat split; vm_compute; reflexivity. Qed.

(** The same id and version under two names: two downloads of the one
    pair are started. *)
Example ensureTasksExist_repeated_pair :
  let w := (@ensureTasksExist Sample.manager
              [Sample.task "A" "a" "1.0"; Sample.task "A" "b" "1.0"]
              Sample.empty_world).2 in
  filter (λ c, is_download c = true) (calls w)
    = [CallDownloadTask "A" "1.0" "/work/tasks/a/1.0.zip";
       CallDownloadTask "A" "1.0" "/work/tasks/b/1.0.zip"].
Proof. vm_compute. reflexivity. Qed.

(** C4 fails on the code: the download reports an error after the
    archive has been written, and the extraction, started all the same,
    succeeds. The promise is rejected, and the bundle directory stays on
    disk with what was extracted. *)
Lemma downloadTask_failed_download_keeps_directory :
  let r := @downloadTask_run Sample.manager (Sample.task "A" "a" "1.0")
             {| download_err := Some "ECONNRESET"; download_wrote := true |}
             {| extract_err := None; extract_files := ["task.json"] |}
             Sample.empty_world in
  r.1 = Q.Rejected "ECONNRESET" ∧
  "/work/tasks/a/1.0" ∈ disk r.2 ∧
  "/work/tasks/a/1.0/task.json" ∈ disk r.2 ∧
  "/work/tasks/a/1.0.zip" ∉ disk r.2.
Proof.
  intros r. split; [reflexivity|].
  repeat split; apply (bool_decide_unpack _); vm_compute; exact I.
Qed.

(** An extraction that fails is rolled back. *)
Example downloadTask_failed_extraction :
  let r := @downloadTask_run Sample.manager (Sample.task "A" "a" "1.0")
             {| download_err := None; download_wrote := true |}
             {| extract_err := Some "bad archive";
                extract_files := ["task.json"] |}
             Sample.empty_world in
  r.1 = Q.Rejected "bad archive" ∧
  ("/work/tasks/a/1.0" ∉ disk r.2) ∧
  ("/work/tasks/a/1.0/task.json" ∉ disk r.2) ∧
  "/work/tasks/a/1.0.zip" ∉ disk r.2.
Proof.
  intros r. split; [reflexivity|].
  repeat split; apply (bool_decide_unpack _); vm_compute; exact I.
Qed.

(** The catalog of the specification. *)
Lemma ensureLatestExist_latest_witness :
  ∃ latest,
    @latestTasks_of Sample.manager
      [Sample.entry "A" "a" 1 0; Sample.entry "A" "a" 2 0;
       Sample.entry "B" "b" 1 0] = Some latest ∧
    NoDup (id <$> latest) ∧
    (∀ d, d ∈ [Sample.entry "A" "a" 1 0; Sample.entry "A" "a" 2 0;
               Sample.entry "B" "b" 1 0] →
          ∃ t, t ∈ latest ∧ id t = def_id d) ∧
    (∀ t, t ∈ latest →
       ∃ d, d ∈ [Sample.entry "A" "a" 1 0; Sample.entry "A" "a" 2 0;
                 Sample.entry "B" "b" 1 0] ∧
            t = @getTaskInstance Sample.manager d ∧
            ∀ d', d' ∈ [Sample.entry "A" "a" 1 0; Sample.entry "A" "a" 2 0;
                        Sample.entry "B" "b" 1 0] →
                  def_id d' = id t →
                  JS.str_gt (Sample.versionString d') (version t) = false) ∧
    listed_completion
      (@ensureLatestExist_listed Sample.manager None
         (Some [Sample.entry "A" "a" 1 0; Sample.entry "A" "a" 2 0;
                Sample.entry "B" "b" 1 0]) Q.Pending Sample.empty_world)
      = JS.Normal ∧
    listed_deferred
      (@ensureLatestExist_listed Sample.manager None
         (Some [Sample.entry "A" "a" 1 0; Sample.entry "A" "a" 2 0;
                Sample.entry "B" "b" 1 0]) Q.Pending Sample.empty_world)
      = Q.Pending ∧
    (listed_promises
       (@ensureLatestExist_listed Sample.manager None
          (Some [Sample.entry "A" "a" 1 0; Sample.entry "A" "a" 2 0;
                 Sample.entry "B" "b" 1 0]) Q.Pending Sample.empty_world),
     listed_world
       (@ensureLatestExist_listed Sample.manager None
          (Some [Sample.entry "A" "a" 1 0; Sample.entry "A" "a" 2 0;
                 Sample.entry "B" "b" 1 0]) Q.Pending Sample.empty_world))
      = @ensureTasksExist Sample.manager latest Sample.empty_world ∧
    ∃ made,
      calls (listed_world
               (@ensureLatestExist_listed Sample.manager None
                  (Some [Sample.entry "A" "a" 1 0; Sample.entry "A" "a" 2 0;
                         Sample.entry "B" "b" 1 0]) Q.Pending
                  Sample.empty_world))
      = calls Sample.empty_world ++ CallEnsureTasksExist latest :: made.
Proof.
  apply (@TaskManagerFacts.ensureLatestExist_latest Sample.manager
           [Sample.entry "A" "a" 1 0; Sample.entry "A" "a" 2 0;
            Sample.entry "B" "b" 1 0] Q.Pending Sample.empty_world).
  apply (bool_decide_unpack _). vm_compute. exact I.
Defined.

(** C5 fails on the code: a catalog with the one entry [constructor]
    1.0. The id has not been seen before, and yet [in] finds the name in
    the empty [latestIndex], which inherits it: the branch for an id seen
    before is taken, the slot that is read there is [undefined], and the
    callback ends in a [TypeError] without a list, without a call of
    [ensureTasksExist] and with the promise left pending. *)
Lemma ensureLatestExist_inherited_id :
  @latestTasks_of Sample.manager [Sample.entry "constructor" "c" 1 0]
    = None ∧
  listed_completion
    (@ensureLatestExist_listed Sample.manager None
       (Some [Sample.entry "constructor" "c" 1 0]) Q.Pending
       Sample.empty_world)
    = JS.Throw "TypeError: Cannot read property 'version'" ∧
  calls (listed_world
           (@ensureLatestExist_listed Sample.manager None
              (Some [Sample.entry "constructor" "c" 1 0]) Q.Pending
              Sample.empty_world))
    = [] ∧
  listed_deferred
    (@ensureLatestExist_listed Sample.manager None
       (Some [Sample.entry "constructor" "c" 1 0]) Q.Pending
       Sample.empty_world)
    = Q.Pending.
Proof. repeat split; vm_compute; reflexivity. Qed.

(** The catalog of the specification: A 1.0, A 2.0 and B 1.0 leave A 2.0
    and B 1.0. *)
Example ensureLatestExist_catalog :
  @latestTasks_of Sample.manager
    [Sample.entry "A" "a" 1 0; Sample.entry "A" "a" 2 0;
     Sample.entry "B" "b" 1 0]
  = Some [Sample.task "A" "a" "2.0"; Sample.task "B" "b" "1.0"].
Proof. vm_compute. reflexivity. Qed.

(** Versions compare as strings: 10.0 lies below 9.0. *)
Example ensureLatestExist_ten_below_nine :
  @latestTasks_of Sample.manager
    [Sample.entry "A" "a" 9 0; Sample.entry "A" "a" 10 0]
  = Some [Sample.task "A" "a" "9.0"].
Proof. vm_compute. reflexivity. Qed.

(** C8 fails on the code: [getTasks] reports an error and passes a list.
    The promise is rejected, and the list is processed all the same:
    [ensureTasksExist] is called and a download is started. *)
Lemma ensureLatestExist_error_goes_on :
  let '(deferred, w) := ensureLatestExist Sample.empty_world in
  let r := @ensureLatestExist_listed Sample.manager (Some "ETIMEDOUT")
             (Some [Sample.entry "A" "a" 1 0]) deferred w in
  listed_deferred r = Q.Rejected "ETIMEDOUT" ∧
  listed_completion r = JS.Normal ∧
  calls (listed_world r)
    = [CallGetTasks;
       CallEnsureTasksExist [Sample.task "A" "a" "1.0"];
       CallEnsureTaskExists (Sample.task "A" "a" "1.0");
       CallDownloadTask "A" "1.0" "/work/tasks/a/1.0.zip"].
Proof. repeat split; vm_compute; reflexivity. Qed.

(** [mkdir -p] makes the directories on the way. *)
Example mkdir_p_makes_parents :
  ancestors "/work/tasks/a/1.0" = ["/work"; "/work/tasks"; "/work/tasks/a"].
Proof. vm_compute. reflexivity. Qed.

End TaskManagerRuns.

(** * Further properties *)

(** ** setVariables: what it writes, and writing twice *)

Module SetVariablesMore.
Import Worker.

Section Facts.

Context `{Platform}.

Lemma with_variables_twice (v v' : gmap string string)
    (job : JobRequestMessage) :
  with_variables v (with_variables v' job) = with_variables v job.
Proof. done. Qed.

(** A map that agrees with the one [setVariables] leaves on the
    collection URI needs no further backfill. *)
Lemma after_collectionUri_settled (job : JobRequestMessage)
    (v : gmap string string) :
  v !! sysVars_collectionUri cm
    = after_collectionUri job !! sysVars_collectionUri cm →
  after_collectionUri (with_variables v job) = v.
Proof.
  intros Hv. unfold after_collectionUri in *. simpl.
  destruct (JS.truthy (v !! sysVars_collectionUri cm)) eqn:Ht; [done|].
  simpl. apply insert_id. rewrite Hv.
  destruct (JS.truthy (variables (environment job)
                         !! sysVars_collectionUri cm)) eqn:Ht0; simpl.
  - simpl in Hv. congruence.
  - by rewrite lookup_insert_eq.
Qed.

(** X1. With the system variable present and three different names for
    the directory variables, [setVariables] leaves the working folder in
    [workingDirectory], a path of the form join(workingFolder, system,
    digest) in [buildDirectory], and that same path joined with
    [staging] in [stagingDirectory]. *)
Theorem setVariables_directories (job : JobRequestMessage)
    (config : IConfiguration) (sys : string) :
  variables (environment job) !! sysVars_system cm = Some sys →
  NoDup [agentVars_workingDirectory cm; agentVars_buildDirectory cm;
         buildVars_stagingDirectory cm] →
  ∃ digest,
    variables (environment (setVariables job config).1)
      !! agentVars_workingDirectory cm = Some (getWorkPath config) ∧
    variables (environment (setVariables job config).1)
      !! agentVars_buildDirectory cm
      = Some (path_join [getWorkPath config; sys; digest]) ∧
    variables (environment (setVariables job config).1)
      !! buildVars_stagingDirectory cm
      = Some (path_join [path_join [getWorkPath config; sys; digest];
                         "staging"]).
Proof.
  intros Hsys Hnames.
  apply NoDup_cons in Hnames as [Hwd Hnames].
  apply NoDup_cons in Hnames as [Hbd _].
  apply not_elem_of_cons in Hwd as [Hwb Hwd].
  apply not_elem_of_cons in Hwd as [Hws _].
  apply not_elem_of_cons in Hbd as [Hbs _].
  rewrite (SetVariablesFacts.setVariables_with_system job config sys Hsys).
  simpl. eexists. split; [|split].
  - rewrite !lookup_insert_ne by done. by rewrite lookup_insert_eq.
  - rewrite lookup_insert_ne by done. by rewrite lookup_insert_eq.
  - by rewrite lookup_insert_eq.
Qed.

(** X2. When the collection URI is absent or empty, and its name is
    none of the three directory names, [setVariables] leaves in it the URL
    of the system connection when the job has one and the server URL of
    the authorization otherwise, also when the call ends in an
    exception. *)
Theorem setVariables_backfills_collectionUri (job : JobRequestMessage)
    (config : IConfiguration) :
  JS.truthy (variables (environment job) !! sysVars_collectionUri cm)
    = false →
  sysVars_collectionUri cm ∉
    [agentVars_workingDirectory cm; agentVars_buildDirectory cm;
     buildVars_stagingDirectory cm] →
  variables (environment (setVariables job config).1)
    !! sysVars_collectionUri cm
  = Some match systemConnection (environment job) with
         | Some connection => connection_url connection
         | None => serverUrl (authorization job)
         end.
Proof.
  intros Hfalsy Hnames.
  apply not_elem_of_cons in Hnames as [Hcw Hnames].
  apply not_elem_of_cons in Hnames as [Hcb Hnames].
  apply not_elem_of_cons in Hnames as [Hcs _].
  assert (after_collectionUri job !! sysVars_collectionUri cm
          = Some (collectionUri_default job)) as Hafter.
  { unfold after_collectionUri. rewrite Hfalsy. simpl.
    by rewrite lookup_insert_eq. }
  destruct (variables (environment job) !! sysVars_system cm) as [sys|] eqn:H1.
  - rewrite (SetVariablesFacts.setVariables_with_system job config sys H1).
    simpl. rewrite !lookup_insert_ne by done. done.
  - by rewrite (SetVariablesFacts.setVariables_without_system job config H1).
Qed.

(** X3. Without the system variable [setVariables] ends in an
    exception and has changed no variable but, at most, the collection
    URI: none of the three directory variables is written. *)
Theorem setVariables_throws_early (job : JobRequestMessage)
    (config : IConfiguration) (k : string) :
  variables (environment job) !! sysVars_system cm = None →
  k ≠ sysVars_collectionUri cm →
  (setVariables job config).2 ≠ JS.Normal ∧
  variables (environment (setVariables job config).1) !! k
    = variables (environment job) !! k.
Proof.
  intros Hsys Hk.
  rewrite (SetVariablesFacts.setVariables_without_system job config Hsys).
  simpl. split; [done|].
  by apply SetVariablesFacts.after_collectionUri_other.
Qed.

(** X4. When the seven variable names are different from each other,
    a second [setVariables] on the job the first one left gives that job
    again and ends the same way. *)
Theorem setVariables_twice (job : JobRequestMessage)
    (config : IConfiguration) :
  NoDup [sysVars_system cm; sysVars_collectionId cm;
         sysVars_collectionUri cm; sysVars_definitionId cm;
         agentVars_workingDirectory cm; agentVars_buildDirectory cm;
         buildVars_stagingDirectory cm] →
  setVariables (setVariables job config).1 config = setVariables job config.
Proof.
  intros Hnames.
  repeat (apply NoDup_cons in Hnames as [?%not_elem_of_cons Hnames]).
  repeat match goal with
         | H : _ ∧ _ |- _ => destruct H
         | H : _ ∉ _ :: _ |- _ => apply not_elem_of_cons in H
         end.
  destruct (variables (environment job) !! sysVars_system cm) as [sys|] eqn:Esys.
  - rewrite (SetVariablesFacts.setVariables_with_system job config sys Esys).
    simpl.
    set (v1 := after_collectionUri job).
    set (B := path_join _).
    set (v4 := <[buildVars_stagingDirectory cm := _]> _).
    assert (v4 !! sysVars_system cm = Some sys) as Hsys4.
    { unfold v4, v1. rewrite !lookup_insert_ne by done.
      by rewrite SetVariablesFacts.after_collectionUri_other. }
    rewrite (SetVariablesFacts.setVariables_with_system
               (with_variables v4 job) config sys Hsys4).
    simpl. rewrite with_variables_twice.
    assert (after_collectionUri (with_variables v4 job) = v4) as ->.
    { apply after_collectionUri_settled. unfold v4.
      by rewrite !lookup_insert_ne by done. }
    assert (v4 !! sysVars_collectionId cm
            = variables (environment job) !! sysVars_collectionId cm) as ->.
    { unfold v4, v1. rewrite !lookup_insert_ne by done.
      by rewrite SetVariablesFacts.after_collectionUri_other. }
    assert (v4 !! sysVars_definitionId cm = v1 !! sysVars_definitionId cm)
      as ->.
    { unfold v4. by rewrite !lookup_insert_ne by done. }
    fold B. f_equal. f_equal.
    apply map_eq. intros k. unfold v4.
    rewrite !lookup_insert. repeat case_decide; done.
  - rewrite (SetVariablesFacts.setVariables_without_system job config Esys).
    simpl.
    assert (after_collectionUri job !! sysVars_system cm = None) as Hsys1.
    { by rewrite SetVariablesFacts.after_collectionUri_other. }
    rewrite (SetVariablesFacts.setVariables_without_system
               (with_variables (after_collectionUri job) job) config Hsys1).
    rewrite with_variables_twice.
    by rewrite after_collectionUri_settled.
Qed.

(** X5. The string that is hashed does not tell an endpoint list from
    the list in which the first two URLs are one URL with a colon in
    between, nor a job without an endpoint list from a job with an empty
    one. *)
Theorem hashInput_joins_urls (collId defId : option string)
    (e1 e2 : Endpoint) (rest : list Endpoint) :
  hashInput collId defId (Some (e1 :: e2 :: rest))
  = hashInput collId defId
      (Some ({| endpoint_url := endpoint_url e1 +:+ ":" +:+ endpoint_url e2 |}
             :: rest)) ∧
  hashInput collId defId None = hashInput collId defId (Some []).
Proof.
  split; [|done]. unfold hashInput. simpl.
  by rewrite !string_app_assoc.
Qed.

End Facts.

(** A job with the system variable. *)
Lemma setVariables_directories_witness :
  ∃ digest,
    variables (environment
      (@setVariables Sample.worker
         (Sample.job [("system", "build")] None None) "/w").1)
      !! "workingDirectory" = Some "/w" ∧
    variables (environment
      (@setVariables Sample.worker
         (Sample.job [("system", "build")] None None) "/w").1)
      !! "buildDirectory" = Some (Sample.join ["/w"; "build"; digest]) ∧
    variables (environment
      (@setVariables Sample.worker
         (Sample.job [("system", "build")] None None) "/w").1)
      !! "stagingDirectory"
      = Some (Sample.join [Sample.join ["/w"; "build"; digest]; "staging"]).
Proof.
  apply (@setVariables_directories Sample.worker
           (Sample.job [("system", "build")] None None) "/w" "build").
  - vm_compute. reflexivity.
  - apply (bool_decide_unpack _). vm_compute. exact I.
Defined.

(** A job with an empty collection URI and a system connection. *)
Lemma setVariables_backfills_collectionUri_witness :
  variables (environment
    (@setVariables Sample.worker
       (Sample.job [("collectionUri", "")] None
          (Some {| connection_url := "https://tfs";
                   accessToken := None |})) "/w").1)
    !! "collectionUri"
  = Some "https://tfs".
Proof.
  apply (@setVariables_backfills_collectionUri Sample.worker
           (Sample.job [("collectionUri", "")] None
              (Some {| connection_url := "https://tfs";
                       accessToken := None |})) "/w").
  - vm_compute. reflexivity.
  - apply (bool_decide_unpack _). vm_compute. exact I.
Defined.

(** A job without the system variable and with a build directory left
    by someone else. *)
Lemma setVariables_throws_early_witness :
  (@setVariables Sample.worker
     (Sample.job [("buildDirectory", "/old")] None None) "/w").2
    ≠ JS.Normal ∧
  variables (environment
    (@setVariables Sample.worker
       (Sample.job [("buildDirectory", "/old")] None None) "/w").1)
    !! "buildDirectory"
  = variables (environment
      (Sample.job [("buildDirectory", "/old")] None None))
    !! "buildDirectory".
Proof.
  apply (@setVariables_throws_early Sample.worker
           (Sample.job [("buildDirectory", "/old")] None None) "/w"
           "buildDirectory").
  - vm_compute. reflexivity.
  - discriminate.
Defined.

Lemma setVariables_twice_witness :
  @setVariables Sample.worker
    (@setVariables Sample.worker
       (Sample.job [("system", "build"); ("collectionId", "c1")]
                   (Some ["https://a"]) None) "/w").1 "/w"
  = @setVariables Sample.worker
      (Sample.job [("system", "build"); ("collectionId", "c1")]
                  (Some ["https://a"]) None) "/w".
Proof.
  apply (@setVariables_twice Sample.worker).
  apply (bool_decide_unpack _). vm_compute. exact I.
Defined.

End SetVariablesMore.

(** ** run: what the finalize step starts, and how the promise ends *)

Module RunMore.
Import Worker.

Section Facts.

Variable job_name : string.

Lemma Phase_operations (s : State) :
  Phase s → operation <$> chains s = take 1 (operation <$> chains s).
Proof.
  intros [? ? Hc|? ? ? ? ? ? Hc|? ? ? ? ? Hc]; by rewrite Hc.
Qed.

Lemma step_operations (e : Event) (s s' : State) :
  Phase s → step job_name e s = Some s' →
  operation <$> chains s'
  = take 1 ((operation <$> chains s) ++ omap operation_of [e]).
Proof.
  intros Hs. pose proof (Phase_operations s Hs) as Hone.
  destruct e as [err result| |i err|i]; simpl.
  - destruct (listening s); [|done]. intros [= <-].
    unfold on_EngineCompleted.
    destruct Hs as [? Hf Hc|? ? ? ? ? Hf Hc|? ? ? ? Hf Hc];
      destruct err; simpl; rewrite Hf; simpl; by rewrite Hc.
  - destruct (listening s); [|done]. intros [= <-].
    unfold on_JobAbandoned.
    destruct Hs as [? Hf Hc|? ? ? ? ? Hf Hc|? ? ? ? Hf Hc];
      rewrite Hf; simpl; by rewrite Hc.
  - rewrite app_nil_r, <- Hone. unfold settle.
    destruct Hs as [? ? Hc|? ? ? ? ? ? Hc|? ? ? ? ? Hc]; rewrite Hc;
      destruct i as [|i]; simpl; try done;
      repeat case_match; try done; by intros [= <-].
  - rewrite app_nil_r, <- Hone. unfold tick.
    destruct Hs as [? ? Hc|? ? ? ? ? ? Hc|? ? ? ? ? Hc]; rewrite Hc;
      destruct i as [|i]; simpl; try done;
      repeat case_match; try done; intros [= <-]; try done;
      unfold run_callback; repeat case_match; done.
Qed.

Lemma exec_operations (events : list Event) (s s' : State) :
  Phase s → exec job_name events s = Some s' →
  operation <$> chains s'
  = take 1 ((operation <$> chains s) ++ omap operation_of events).
Proof.
  revert s. induction events as [|e events IH]; intros s Hs.
  - intros [= <-]. simpl. rewrite app_nil_r. by apply Phase_operations.
  - simpl exec.
    destruct (step job_name e s) as [s1|] eqn:He; [|done]. intros Hex.
    rewrite (IH s1 (RunFacts.step_Phase job_name e s s1 Hs He) Hex).
    rewrite (step_operations e s s1 Hs He). simpl.
    destruct (operation <$> chains s) as [|? ?]; [|done].
    by destruct (operation_of e).
Qed.

(** X6. After a job message, once a trigger has arrived, one operation
    has been started and no other: [drain] when the abandonment came
    first, so that [ctx.finishJob] is never called, and [finishJob] with
    the result of the first completion when that came first. *)
Theorem first_trigger_starts_operation (events : list Event)
    (op : Operation) (s : State) :
  exec job_name events (run "job") = Some s →
  head (omap operation_of events) = Some op →
  ∃ p hs, chains s = [{| operation := op; promise := p; handlers := hs |}].
Proof.
  rewrite RunFacts.run_job. intros Hex Hfirst.
  pose proof (exec_operations events started s RunFacts.started_Phase Hex)
    as Hops.
  simpl in Hops.
  destruct (omap operation_of events) as [|op0 ops]; simplify_eq/=.
  destruct (chains s) as [|[op0 p hs] [|c cs]]; simplify_eq/=.
  by exists p, hs.
Qed.

(** X7. The promise that [run] returns for a job message is never
    rejected: whatever happens, it is pending or fulfilled, also when
    [finishJob] or [drain] fails. *)
Theorem run_never_rejects (events : list Event) (s : State) :
  exec job_name events (run "job") = Some s →
  deferred s = Q.Pending ∨ deferred s = Q.Fulfilled.
Proof.
  rewrite RunFacts.run_job. intros Hex.
  pose proof (RunFacts.exec_Phase job_name events started s
                RunFacts.started_Phase Hex) as Hs.
  destruct Hs as [? ? ? ? ? Hd|? ? ? ? ? ? ? ? ? ? Hd|? ? ? ? ? ? ? ? ? Hd];
    rewrite Hd; auto.
Qed.

Lemma step_log_grows (e : Event) (s s' : State) :
  step job_name e s = Some s' → ∃ entries, log s' = log s ++ entries.
Proof.
  destruct e as [err result| |j err|j]; simpl.
  - destruct (listening s); [|done]. intros [= <-].
    unfold on_EngineCompleted.
    destruct err; simpl; destruct (finishingJob s); simpl;
      rewrite <- ?app_assoc; by eexists.
  - destruct (listening s); [|done]. intros [= <-].
    unfold on_JobAbandoned. destruct (finishingJob s); simpl;
      [exists []; by rewrite app_nil_r|by eexists].
  - unfold settle. repeat case_match; try done; intros [= <-]; simpl;
      exists []; by rewrite app_nil_r.
  - unfold tick. repeat case_match; try done; intros [= <-];
      unfold run_callback; repeat case_match; simpl;
      first [by eexists | exists []; by rewrite app_nil_r].
Qed.

Lemma step_noted (seen : list Event) (e : Event) (s s' : State) :
  Phase s → failure_noted seen s → step job_name e s = Some s' →
  failure_noted (seen ++ [e]) s'.
Proof.
  intros Hs [Hnone Hnoted] Hstep.
  destruct (step_log_grows e s s' Hstep) as [entries Hlog].
  assert (∀ x, x ∈ log s → x ∈ log s') as Hkeeps.
  { intros x Hx. rewrite Hlog. apply elem_of_app. by left. }
  destruct (is_trigger e) eqn:Htrigger.
  - assert (∀ i err, Settled i err ∈ seen ++ [e] → Settled i err ∈ seen)
      as Hseen.
    { intros i err [Hin|Hin%list_elem_of_singleton]%elem_of_app; [done|].
      by subst e. }
    destruct (finishingJob s) eqn:Hflag.
    + destruct (RunFacts.late_trigger_only_logs job_name e s s'
                  Hflag Htrigger Hstep) as (_ & _ & _ & Hc & Hfin & _).
      split.
      * rewrite Hc. intros Hp i err Hin. by apply (Hnone Hp i err), Hseen.
      * intros i reason Hin Hpath. rewrite Hc. rewrite Hfin in Hpath.
        destruct (Hnoted i reason (Hseen _ _ Hin) Hpath) as [?|?]; auto.
    + assert (∀ i err, Settled i err ∉ seen) as Hfresh.
      { apply Hnone.
        destruct Hs as [? ? Hc|? ? ? ? ? Hf|? ? ? ? Hf]; [|congruence..].
        rewrite Hc. constructor. }
      split.
      * intros _ i err Hin. by apply (Hfresh i err), Hseen.
      * intros i reason Hin. by apply Hseen, Hfresh in Hin.
  - destruct e as [err result| |j err|j]; try done; simpl in Hstep.
    + (* the operation settles *)
      unfold settle in Hstep.
      destruct Hs as [? ? Hc|path op p hs Hl Hf Hc Hw Hfin Hr Hd
                     |path op p Hl Hf Hc Hp Hfin Hr Hd];
        rewrite Hc in Hstep; destruct j as [|j]; try done; simpl in Hstep.
      * destruct p; try done. injection Hstep as <-.
        assert (∀ i err0, Settled i err0 ∉ seen) as Hfresh.
        { apply Hnone. rewrite Hc. by repeat constructor. }
        split.
        -- simpl. intros Hp. apply Forall_cons in Hp as [Hp _]. simpl in Hp.
           by destruct err.
        -- simpl. intros i reason Hin Hpath. left.
           apply elem_of_app in Hin as [Hin|Hin%list_elem_of_singleton];
             [by apply Hfresh in Hin|].
           injection Hin as -> <-.
           rewrite Hfin in Hpath. injection Hpath as ->.
           destruct op; simpl in Hw; [done|].
           destruct Hw as [->|[? _]]; [|done].
           eexists _, _. split; [done|].
           apply list_elem_of_further, list_elem_of_here.
      * by destruct p.
    + (* a handler runs *)
      assert (∀ i err, Settled i err ∈ seen ++ [Tick j] → Settled i err ∈ seen)
        as Hseen.
      { by intros i err [Hin|Hin%list_elem_of_singleton]%elem_of_app. }
      unfold tick in Hstep.
      destruct Hs as [? ? Hc|path op p hs Hl Hf Hc Hw Hfin Hr Hd
                     |path op p Hl Hf Hc Hp Hfin Hr Hd];
        rewrite Hc in Hstep; destruct j as [|j]; try done; simpl in Hstep.
      destruct hs as [|h hs]; [done|].
      destruct p as [| |rejected]; [done| |].
      * (* fulfilled: the chain is no longer that of a failure *)
        assert (chains s' = [{| operation := op; promise := Q.Fulfilled;
                                handlers := hs |}]
                ∧ finalized s' = finalized s) as [Hc' Hfin'].
        { destruct h as [cb|cb]; injection Hstep as <-; [|done].
          by destruct cb. }
        split.
        -- rewrite Hc'. intros Hp%Forall_cons. by destruct Hp.
        -- intros i reason Hin Hpath. rewrite Hfin' in Hpath.
           destruct (Hnoted i reason (Hseen _ _ Hin) Hpath)
             as [(r & hs0 & Hc0 & _)|?]; [congruence|auto].
      * destruct h as [cb|cb]; injection Hstep as <-.
        -- (* a [fin] handler: the failure stays on its way *)
           split.
           ++ destruct cb; simpl; intros Hp%Forall_cons; by destruct Hp.
           ++ intros i reason Hin Hpath.
              assert (finalized s = [ByCompletion]) as Hpath0.
              { by destruct cb. }
              destruct (Hnoted i reason (Hseen _ _ Hin) Hpath0)
                as [(r & hs0 & Hc0 & Hfail)|Hlogged].
              ** rewrite Hc in Hc0. injection Hc0 as -> -> <-.
                 apply elem_of_cons in Hfail as [[= <-]|Hfail].
                 left. exists r, hs. split; [by destruct cb|done].
              ** right. destruct cb; simpl; rewrite ?elem_of_app; auto.
        -- (* the [fail] handler: the failure enters the log *)
           split.
           ++ destruct cb; simpl; intros Hp%Forall_cons; by destruct Hp.
           ++ intros i reason Hin Hpath.
              assert (finalized s = [ByCompletion]) as Hpath0.
              { by destruct cb. }
              destruct (Hnoted i reason (Hseen _ _ Hin) Hpath0)
                as [(r & hs0 & Hc0 & Hfail)|Hlogged].
              ** rewrite Hc in Hc0. injection Hc0 as -> -> <-.
                 rewrite Hfin in Hpath0. injection Hpath0 as ->.
                 simpl in Hw. destruct Hw as [[=]|[_ [[= -> ->]|[=]]]].
                 right. simpl. apply elem_of_app. right.
                 apply list_elem_of_here.
              ** right. destruct cb; simpl; rewrite ?elem_of_app; auto.
Qed.

Lemma exec_noted (rest seen : list Event) (s s' : State) :
  Phase s → failure_noted seen s → exec job_name rest s = Some s' →
  failure_noted (seen ++ rest) s'.
Proof.
  revert seen s. induction rest as [|e rest IH]; intros seen s Hs Hn; simpl.
  - intros [= <-]. by rewrite app_nil_r.
  - destruct (step job_name e s) as [s1|] eqn:He; [|done]. intros Hex.
    replace (seen ++ e :: rest) with ((seen ++ [e]) ++ rest)
      by by rewrite <- app_assoc.
    apply (IH _ s1); [|by apply (step_noted seen e s s1)|done].
    by apply (RunFacts.step_Phase job_name e s s1).
Qed.

(** X8. On the completion path a failure of [finishJob] is in the log
    by the time the promise of [run] is resolved: whatever the events, if
    [finishJob] was rejected with a message and the promise is fulfilled,
    the log holds the error line for that message. *)
Theorem finishJob_failure_is_logged (events : list Event) (i : nat)
    (reason : string) (s : State) :
  exec job_name events (run "job") = Some s →
  head (arrivals events) = Some ByCompletion →
  Settled i (Some reason) ∈ events →
  deferred s = Q.Fulfilled →
  Error ("Error: " +:+ reason) ∈ log s.
Proof.
  rewrite RunFacts.run_job. intros Hex Hfirst Hin Hd.
  pose proof (RunFacts.exec_Phase job_name events started s
                RunFacts.started_Phase Hex) as Hs.
  pose proof (RunFacts.exec_finalized job_name events started s
                RunFacts.started_Phase Hex) as Hfin.
  simpl in Hfin.
  assert (finalized s = [ByCompletion]) as Hpath.
  { rewrite Hfin. destruct (arrivals events) as [|p ps]; simplify_eq/=. done. }
  assert (failure_noted [] started) as Hstart.
  { split.
    - intros _ j err Hj. by apply elem_of_nil in Hj.
    - intros j r Hj. by apply elem_of_nil in Hj. }
  destruct (exec_noted events [] started s RunFacts.started_Phase Hstart Hex)
    as [_ Hnoted].
  destruct (Hnoted i reason Hin Hpath) as [(r & hs & Hc & Hfail)|Hlogged];
    [|done].
  destruct Hs as [? ? ? ? ? Hd0|? ? ? ? ? ? ? ? ? ? Hd0|? ? ? ? ? Hc0];
    [congruence..|].
  rewrite Hc in Hc0. injection Hc0 as _ _ ->. by apply elem_of_nil in Hfail.
Qed.

End Facts.

(** The abandonment arrives while nothing else has happened, and the
    engine completes afterwards. *)
Lemma first_trigger_starts_operation_witness :
  ∃ s,
    exec "build" [JobAbandoned; EngineCompleted None 0] (run "job")
      = Some s ∧
    ∃ p hs, chains s = [{| operation := Drain; promise := p;
                           handlers := hs |}].
Proof.
  eexists. split.
  - vm_compute. reflexivity.
  - apply (first_trigger_starts_operation "build"
             [JobAbandoned; EngineCompleted None 0] Drain).
    + vm_compute. reflexivity.
    + reflexivity.
Defined.

(** The drain fails. *)
Lemma run_never_rejects_witness :
  ∃ s,
    exec "build" [JobAbandoned; Settled 0 (Some "ECONNRESET"); Tick 0]
         (run "job") = Some s ∧
    (deferred s = Q.Pending ∨ deferred s = Q.Fulfilled).
Proof.
  eexists. split.
  - vm_compute. reflexivity.
  - apply (run_never_rejects "build"
             [JobAbandoned; Settled 0 (Some "ECONNRESET"); Tick 0]).
    vm_compute. reflexivity.
Defined.

Lemma finishJob_failure_is_logged_witness :
  ∃ s,
    exec "build"
         [EngineCompleted None 0; Settled 0 (Some "ECONNRESET"); JobAbandoned;
          Tick 0; Tick 0; Tick 0] (run "job") = Some s ∧
    Error ("Error: " +:+ "ECONNRESET") ∈ log s.
Proof.
  eexists. split.
  - vm_compute. reflexivity.
  - apply (finishJob_failure_is_logged "build"
             [EngineCompleted None 0; Settled 0 (Some "ECONNRESET");
              JobAbandoned; Tick 0; Tick 0; Tick 0] 0 "ECONNRESET").
    + vm_compute. reflexivity.
    + reflexivity.
    + apply list_elem_of_further, list_elem_of_here.
    + reflexivity.
Defined.


End RunMore.

(** ** The task bundle cache: downloads, the disk and the catalog *)

Lemma string_app_cancel_r (a b s : string) : a +:+ s = b +:+ s → a = b.
Proof.
  revert b. induction a as [|x a IH]; intros [|y b] Heq; [done| | |].
  - apply (f_equal String.length) in Heq.
    rewrite !string_length_app in Heq. simpl in Heq. lia.
  - apply (f_equal String.length) in Heq.
    rewrite !string_length_app in Heq. simpl in Heq. lia.
  - change (String x (a +:+ s) = String y (b +:+ s)) in Heq.
    injection Heq as -> Heq. f_equal. by apply IH.
Qed.

Lemma string_prefix_app (a b c : string) :
  String.prefix (a +:+ b) (a +:+ c) = String.prefix b c.
Proof.
  induction a as [|x a IH]; [done|].
  change (String.prefix (String x (a +:+ b)) (String x (a +:+ c))
          = String.prefix b c).
  simpl. by destruct (Ascii.ascii_dec x x).
Qed.

(** What is extracted is neither the archive nor below it. *)
Lemma extracted_not_under_archive (p f : string) :
  ¬ TaskManager.is_under (p +:+ ".zip") (p +:+ "/" +:+ f).
Proof.
  unfold TaskManager.is_under. intros [Heq|Hpre].
  - apply (inj (String.append p)) in Heq. discriminate.
  - rewrite string_app_assoc, string_prefix_app in Hpre. discriminate.
Qed.

Module TaskManagerMore.
Import TaskManager.

Section Facts.

Context `{Platform}.

(** X9. When the extraction reports no error the bundle directory and
    the extracted files are on disk and the archive is gone; the promise
    is fulfilled when the download reported no error and rejected with
    the error of the download otherwise. *)
Theorem downloadTask_extract_ok (task : TaskInstance) (dl : DownloadReply)
    (ex : ExtractReply) (w : World) :
  extract_err ex = None →
  (downloadTask_run task dl ex w).1
    = match download_err dl with
      | Some e => Q.Rejected e
      | None => Q.Fulfilled
      end ∧
  getTaskPath task ∈ disk (downloadTask_run task dl ex w).2 ∧
  (∀ f, f ∈ extract_files ex →
        getTaskPath task +:+ "/" +:+ f
          ∈ disk (downloadTask_run task dl ex w).2) ∧
  getTaskPath task +:+ ".zip" ∉ disk (downloadTask_run task dl ex w).2.
Proof.
  intros Hex. unfold downloadTask_run, downloadTask, downloadTask_downloaded,
    downloadTask_extracted. rewrite Hex. simpl. split; [|split; [|split]].
  - by destruct (download_err dl).
  - unfold rm_rf. rewrite elem_of_filter. split; [apply not_under_archive|].
    unfold extracted, downloaded, mkdir_p.
    destruct (download_wrote dl);
      rewrite !elem_of_union, !elem_of_singleton; tauto.
  - intros f Hf. unfold rm_rf. rewrite elem_of_filter.
    split; [apply extracted_not_under_archive|].
    unfold extracted. rewrite elem_of_union, elem_of_list_to_set.
    right. apply list_elem_of_fmap. by exists f.
  - apply TaskManagerFacts.not_in_rm_rf, TaskManagerFacts.is_under_refl.
Qed.

(** X10. [downloadTask] removes nothing but the bundle directory, the
    archive and what lies below them: any other path that was on disk
    before is on disk after, whatever the two helpers report. *)
Theorem downloadTask_keeps_others (task : TaskInstance) (dl : DownloadReply)
    (ex : ExtractReply) (w : World) (q : string) :
  q ∈ disk w →
  ¬ is_under (getTaskPath task) q →
  ¬ is_under (getTaskPath task +:+ ".zip") q →
  q ∈ disk (downloadTask_run task dl ex w).2.
Proof.
  intros Hq Hdir Hzip.
  assert (q ∈ extracted ex (getTaskPath task)
                (downloaded dl (getTaskPath task +:+ ".zip")
                   (mkdir_p (getTaskPath task) (disk w)))) as Hin.
  { unfold extracted, downloaded, mkdir_p.
    destruct (download_wrote dl);
      rewrite !elem_of_union; tauto. }
  unfold downloadTask_run, downloadTask, downloadTask_downloaded,
    downloadTask_extracted.
  destruct (extract_err ex); simpl; unfold rm_rf;
    rewrite !elem_of_filter; tauto.
Qed.

(** X11. After [ensureTaskExists] has returned, [hasTask] holds for
    the task and for every task of the same name and version, whatever its
    id, although a download that was started has not finished. *)
Theorem ensureTaskExists_then_hasTask (task other : TaskInstance)
    (w : World) :
  name other = name task → version other = version task →
  hasTask other (ensureTaskExists task w).2 = true.
Proof.
  intros Hname Hversion.
  assert (getTaskPath other = getTaskPath task) as Hpath.
  { unfold getTaskPath. by rewrite Hname, Hversion. }
  unfold hasTask, existsSync. rewrite Hpath.
  unfold ensureTaskExists, hasTask, existsSync. simpl.
  destruct (bool_decide (getTaskPath task ∈ disk w)) eqn:Hin; simpl.
  - by rewrite Hin.
  - rewrite bool_decide_true; [done|].
    unfold mkdir_p. rewrite !elem_of_union, elem_of_singleton. tauto.
Qed.

Lemma ensureTaskExists_disk (task : TaskInstance) (w : World) :
  disk w ⊆ disk (ensureTaskExists task w).2.
Proof.
  unfold ensureTaskExists, downloadTask. destruct (negb _); simpl; [|done].
  unfold mkdir_p. intros q Hq. rewrite !elem_of_union. tauto.
Qed.

Lemma ensureTaskExists_downloads (task : TaskInstance) (w : World) :
  (getTaskPath task ∈ disk w ∧
   download_paths (calls (ensureTaskExists task w).2)
     = download_paths (calls w)) ∨
  ((getTaskPath task ∉ disk w) ∧
   download_paths (calls (ensureTaskExists task w).2)
     = download_paths (calls w) ++ [getTaskPath task +:+ ".zip"]).
Proof.
  unfold ensureTaskExists, downloadTask, hasTask, existsSync,
    download_paths. simpl.
  destruct (decide (getTaskPath task ∈ disk w)) as [Hin|Hout].
  - left. split; [done|]. rewrite bool_decide_true by done. simpl.
    rewrite omap_app. simpl. by rewrite app_nil_r.
  - right. split; [done|]. rewrite bool_decide_false by done. simpl.
    rewrite !omap_app. simpl. by rewrite app_nil_r.
Qed.

Lemma map_ensureTaskExists_downloads (tasks : list TaskInstance)
    (w : World) :
  disk w ⊆ disk (map_ensureTaskExists tasks w).2 ∧
  ∃ started,
    download_paths (calls (map_ensureTaskExists tasks w).2)
      = download_paths (calls w) ++ started ∧
    NoDup started ∧
    ∀ f, f ∈ started →
         ∃ task, task ∈ tasks ∧ f = getTaskPath task +:+ ".zip" ∧
                 (getTaskPath task ∉ disk w) ∧
                 getTaskPath task ∈ disk (map_ensureTaskExists tasks w).2.
Proof.
  revert w. induction tasks as [|task tasks IH]; intros w; simpl.
  - split; [done|]. exists []. rewrite app_nil_r.
    split; [done|]. split; [constructor|]. intros f Hf.
    by apply elem_of_nil in Hf.
  - pose proof (ensureTaskExists_disk task w) as Hdisk.
    pose proof (ensureTaskExists_downloads task w) as Hone.
    pose proof (ensureTaskExists_then_hasTask task task w eq_refl eq_refl)
      as Hhas.
    destruct (ensureTaskExists task w) as [p w1]. simpl in *.
    destruct (IH w1) as (Hdisk1 & started & Hpaths & Hnodup & Hstarted).
    destruct (map_ensureTaskExists tasks w1) as [ps w2]. simpl in *.
    assert (getTaskPath task ∈ disk w1) as Hmade.
    { unfold hasTask, existsSync in Hhas.
      destruct (bool_decide (getTaskPath task ∈ disk w1)) eqn:Hb; [|done].
      by apply bool_decide_eq_true in Hb. }
    assert (∀ f, f ∈ started →
              ∃ t, t ∈ task :: tasks ∧ f = getTaskPath t +:+ ".zip" ∧
                   (getTaskPath t ∉ disk w) ∧ getTaskPath t ∈ disk w2)
      as Hrest.
    { intros f Hf. destruct (Hstarted f Hf) as (t & Ht & -> & Hout & Hin).
      exists t. split; [by apply list_elem_of_further|].
      split; [done|]. split; [|done]. intros Hw. apply Hout. by apply Hdisk. }
    split; [by etrans|].
    destruct Hone as [[Hin Heq]|[Hout Heq]].
    + exists started. rewrite Hpaths, Heq. done.
    + exists ((getTaskPath task +:+ ".zip") :: started).
      rewrite Hpaths, Heq, <- app_assoc. split; [done|]. split.
      * apply NoDup_cons. split; [|done]. intros Hf.
        destruct (Hstarted _ Hf) as (t & _ & Heqt & Houtt & _).
        apply string_app_cancel_r in Heqt. apply Houtt. by rewrite <- Heqt.
      * intros f Hf. apply elem_of_cons in Hf as [->|Hf]; [|by apply Hrest].
        exists task. split; [apply list_elem_of_here|].
        split; [done|]. split; [done|]. by apply Hdisk1.
Qed.

(** X12. One [ensureTasksExist] never starts two downloads into the
    same archive, however often a task is listed: every download it starts
    is for a listed task whose bundle directory was not on disk before,
    and no archive path comes twice. *)
Theorem ensureTasksExist_downloads_once (tasks : list TaskInstance)
    (w : World) :
  ∃ started,
    download_paths (calls (ensureTasksExist tasks w).2)
      = download_paths (calls w) ++ started ∧
    NoDup started ∧
    ∀ f, f ∈ started →
         ∃ task, task ∈ tasks ∧ f = getTaskPath task +:+ ".zip" ∧
                 getTaskPath task ∉ disk w.
Proof.
  unfold ensureTasksExist.
  destruct (map_ensureTaskExists_downloads tasks
              (call (CallEnsureTasksExist tasks) w))
    as (_ & started & Hpaths & Hnodup & Hstarted).
  exists started. split; [|split; [done|]].
  - rewrite Hpaths. unfold download_paths, call. simpl.
    rewrite omap_app. simpl. by rewrite app_nil_r.
  - intros f Hf. destruct (Hstarted f Hf) as (t & Ht & Heq & Hout & _).
    by exists t.
Qed.

Lemma latest_loop_distinct (tasks : list TaskDefinition)
    (latestIndex : gmap string nat) (latestTasks : list TaskInstance) :
  Forall (λ d, def_id d ∉ JS.Object_prototype) tasks →
  NoDup (def_id <$> tasks) →
  (∀ d, d ∈ tasks → latestIndex !! def_id d = None) →
  snd <$> latest_loop tasks (latestIndex, latestTasks)
  = Some (latestTasks ++ (getTaskInstance <$> tasks)).
Proof.
  revert latestIndex latestTasks.
  induction tasks as [|task tasks IH];
    intros latestIndex latestTasks Hown Hnodup Hnew.
  - simpl. by rewrite app_nil_r.
  - simpl in Hnodup. apply NoDup_cons in Hnodup as [Hfresh Hnodup].
    apply Forall_cons in Hown as [Hown1 Hown].
    simpl. unfold JS.has_property.
    rewrite (bool_decide_false (def_id task ∈ JS.Object_prototype)) by done.
    rewrite (Hnew task) by apply list_elem_of_here.
    rewrite bool_decide_false by (by intros [? ?]). simpl.
    rewrite IH; [by rewrite <- app_assoc|done|done|].
    intros d Hd. rewrite lookup_insert_ne; [apply Hnew; by right|].
    intros Heq. apply Hfresh. rewrite Heq.
    apply list_elem_of_fmap. by exists d.
Qed.

(** X13. A catalog that lists every id once, none of them a name
    inherited from [Object.prototype], is kept as it is: the latest tasks
    are the entries of the catalog in listed order. *)
Theorem latestTasks_of_distinct (tasks : list TaskDefinition) :
  Forall (λ d, def_id d ∉ JS.Object_prototype) tasks →
  NoDup (def_id <$> tasks) →
  latestTasks_of tasks = Some (getTaskInstance <$> tasks).
Proof.
  intros Hown Hnodup. unfold latestTasks_of.
  rewrite (latest_loop_distinct tasks ∅ [] Hown Hnodup); [done|].
  intros d _. apply lookup_empty.
Qed.

Lemma map_ensureTaskExists_download_calls (tasks : list TaskInstance)
    (w : World) :
  ∃ fetched,
    fetched `sublist_of` tasks ∧
    filter (λ c, is_download c = true)
           (calls (map_ensureTaskExists tasks w).2)
    = filter (λ c, is_download c = true) (calls w)
        ++ (download_call <$> fetched).
Proof.
  revert w. induction tasks as [|task tasks IH]; intros w; simpl.
  - exists []. split; [done|]. by rewrite app_nil_r.
  - assert (filter (λ c, is_download c = true)
                   (calls (ensureTaskExists task w).2)
            = filter (λ c, is_download c = true) (calls w)
              ∨ filter (λ c, is_download c = true)
                       (calls (ensureTaskExists task w).2)
                = filter (λ c, is_download c = true) (calls w)
                    ++ [download_call task]) as Hone.
    { unfold ensureTaskExists, downloadTask. destruct (negb _); simpl.
      - right. rewrite !filter_app. simpl. by rewrite app_nil_r.
      - left. rewrite filter_app. simpl. by rewrite app_nil_r. }
    destruct (ensureTaskExists task w) as [p w1]. simpl in Hone.
    destruct (IH w1) as (fetched & Hsub & Hcalls).
    destruct (map_ensureTaskExists tasks w1) as [ps w2]. simpl in *.
    destruct Hone as [Hone|Hone]; rewrite Hcalls, Hone.
    + exists fetched. split; [by apply sublist_cons|done].
    + exists (task :: fetched). split; [by apply sublist_skip|].
      by rewrite <- app_assoc.
Qed.

(** X14. After a listing without error of a catalog none of whose ids
    is a name inherited from [Object.prototype], [ensureLatestExist]
    starts downloads for latest versions only and at most one per task
    id: every download is that of a catalog entry above whose version
    string no entry of the same id lies, and no id is downloaded twice. *)
Theorem ensureLatestExist_downloads_latest (tasks : list TaskDefinition)
    (deferred : Q.state) (w : World) :
  Forall (λ d, def_id d ∉ JS.Object_prototype) tasks →
  ∃ fetched,
    filter (λ c, is_download c = true)
           (calls (listed_world
                     (ensureLatestExist_listed None (Some tasks) deferred w)))
    = filter (λ c, is_download c = true) (calls w)
        ++ (download_call <$> fetched) ∧
    NoDup (id <$> fetched) ∧
    ∀ t, t ∈ fetched →
         ∃ d, d ∈ tasks ∧ t = getTaskInstance d ∧
              ∀ d', d' ∈ tasks → def_id d' = id t →
                    JS.str_gt (versionStringFromTaskDef d') (version t)
                    = false.
Proof.
  intros Hown.
  destruct (TaskManagerFacts.latest_loop_inv tasks [] (∅, []) Hown
              TaskManagerFacts.latest_inv_start)
    as ([latestIndex latest] & Hloop & Hidx & Hslot & Hseen).
  simpl in *.
  unfold ensureLatestExist_listed, latestTasks_of. rewrite Hloop. simpl.
  destruct (map_ensureTaskExists_download_calls latest
              (call (CallEnsureTasksExist latest) w))
    as (fetched & Hsub & Hcalls).
  unfold ensureTasksExist.
  destruct (map_ensureTaskExists latest
              (call (CallEnsureTasksExist latest) w)) as [ps w'].
  simpl in *. exists fetched. split; [|split].
  - rewrite Hcalls, filter_app. simpl. by rewrite app_nil_r.
  - apply (sublist_NoDup _ (id <$> latest)); [|by apply fmap_sublist].
    apply NoDup_alt. intros i j k Hi Hj.
    rewrite list_lookup_fmap in Hi, Hj.
    destruct (latest !! i) as [ti|] eqn:Hti; [|done].
    destruct (latest !! j) as [tj|] eqn:Htj; [|done].
    simpl in *. injection Hi as Hi. injection Hj as Hj.
    pose proof (Hslot _ _ Hti) as [Hili _].
    pose proof (Hslot _ _ Htj) as [Hjlj _].
    congruence.
  - intros t Ht. apply (elem_of_sublist _ _ _ Ht) in Hsub.
    apply list_elem_of_lookup in Hsub as [i Hi].
    pose proof (Hslot _ _ Hi) as [_ Hfrom]. done.
Qed.

End Facts.

(** A download and an extraction that both work. *)
Lemma downloadTask_extract_ok_witness :
  let r := @downloadTask_run Sample.manager (Sample.task "A" "a" "1.0")
             {| download_err := None; download_wrote := true |}
             {| extract_err := None; extract_files := ["task.json"] |}
             Sample.empty_world in
  r.1 = Q.Fulfilled ∧
  @getTaskPath Sample.manager (Sample.task "A" "a" "1.0") ∈ disk r.2 ∧
  (∀ f, f ∈ ["task.json"] →
        @getTaskPath Sample.manager (Sample.task "A" "a" "1.0")
          +:+ "/" +:+ f ∈ disk r.2) ∧
  @getTaskPath Sample.manager (Sample.task "A" "a" "1.0") +:+ ".zip"
    ∉ disk r.2.
Proof.
  apply (@downloadTask_extract_ok Sample.manager (Sample.task "A" "a" "1.0")
           {| download_err := None; download_wrote := true |}
           {| extract_err := None; extract_files := ["task.json"] |}
           Sample.empty_world).
  reflexivity.
Defined.

(** The bundle of another task stays while a download is rolled back. *)
Lemma downloadTask_keeps_others_witness :
  "/work/tasks/b/2.0"
  ∈ disk (@downloadTask_run Sample.manager (Sample.task "A" "a" "1.0")
            {| download_err := None; download_wrote := true |}
            {| extract_err := Some "bad archive"; extract_files := [] |}
            {| disk := {["/work/tasks/b/2.0"]}; calls := [] |}).2.
Proof.
  apply (@downloadTask_keeps_others Sample.manager).
  - apply (bool_decide_unpack _). vm_compute. exact I.
  - apply (bool_decide_unpack _). vm_compute. exact I.
  - apply (bool_decide_unpack _). vm_compute. exact I.
Defined.

(** The download works and the archive is broken. *)
Lemma downloadTask_extract_error_witness :
  let r := @downloadTask_run Sample.manager (Sample.task "A" "a" "1.0")
             {| download_err := None; download_wrote := true |}
             {| extract_err := Some "bad archive";
                extract_files := ["task.json"] |}
             Sample.empty_world in
  r.1 = Q.Rejected "bad archive" ∧
  (∀ q, is_under (@getTaskPath Sample.manager (Sample.task "A" "a" "1.0")) q →
        q ∉ disk r.2) ∧
  @getTaskPath Sample.manager (Sample.task "A" "a" "1.0") +:+ ".zip"
    ∉ disk r.2.
Proof.
  apply (@TaskManagerFacts.downloadTask_extract_error Sample.manager
           (Sample.task "A" "a" "1.0")
           {| download_err := None; download_wrote := true |}
           {| extract_err := Some "bad archive";
              extract_files := ["task.json"] |}
           Sample.empty_world "bad archive").
  reflexivity.
Defined.

(** The download fails and so does the extraction. *)
Lemma downloadTask_download_error_witness :
  (@downloadTask_run Sample.manager (Sample.task "A" "a" "1.0")
     {| download_err := Some "ECONNRESET"; download_wrote := false |}
     {| extract_err := Some "no archive"; extract_files := [] |}
     Sample.empty_world).1
  = Q.Rejected "ECONNRESET".
Proof.
  apply (@TaskManagerFacts.downloadTask_download_error Sample.manager).
  reflexivity.
Defined.

(** Two ids that share name and version share the bundle directory. *)
Lemma ensureTaskExists_then_hasTask_witness :
  @hasTask Sample.manager (Sample.task "B" "a" "1.0")
    (@ensureTaskExists Sample.manager (Sample.task "A" "a" "1.0")
       Sample.empty_world).2 = true.
Proof.
  apply (@ensureTaskExists_then_hasTask Sample.manager).
  - reflexivity.
  - reflexivity.
Defined.

Lemma latestTasks_of_distinct_witness :
  @latestTasks_of Sample.manager
    [Sample.entry "B" "b" 1 0; Sample.entry "A" "a" 2 0]
  = Some (@getTaskInstance Sample.manager
            <$> [Sample.entry "B" "b" 1 0; Sample.entry "A" "a" 2 0]).
Proof.
  apply (@latestTasks_of_distinct Sample.manager).
  - apply (bool_decide_unpack _). vm_compute. exact I.
  - apply (bool_decide_unpack _). vm_compute. exact I.
Defined.

(** The catalog of the specification, with the bundle of B on disk:
    A 2.0 alone is downloaded. *)
Lemma ensureLatestExist_downloads_latest_witness :
  ∃ fetched,
    filter (λ c, is_download c = true)
           (calls (listed_world
                     (@ensureLatestExist_listed Sample.manager None
                        (Some [Sample.entry "A" "a" 1 0;
                               Sample.entry "A" "a" 2 0;
                               Sample.entry "B" "b" 1 0]) Q.Pending
                        {| disk := {["/work/tasks/b/1.0"]};
                           calls := [] |})))
    = filter (λ c, is_download c = true) []
        ++ (@download_call Sample.manager <$> fetched) ∧
    NoDup (id <$> fetched) ∧
    ∀ t, t ∈ fetched →
         ∃ d, d ∈ [Sample.entry "A" "a" 1 0; Sample.entry "A" "a" 2 0;
                   Sample.entry "B" "b" 1 0] ∧
              t = @getTaskInstance Sample.manager d ∧
              ∀ d', d' ∈ [Sample.entry "A" "a" 1 0;
                          Sample.entry "A" "a" 2 0;
                          Sample.entry "B" "b" 1 0] →
                    def_id d' = id t →
                    JS.str_gt (Sample.versionString d') (version t) = false.
Proof.
  apply (@ensureLatestExist_downloads_latest Sample.manager
           [Sample.entry "A" "a" 1 0; Sample.entry "A" "a" 2 0;
            Sample.entry "B" "b" 1 0] Q.Pending
           {| disk := {["/work/tasks/b/1.0"]}; calls := [] |}).
  apply (bool_decide_unpack _). vm_compute. exact I.
Defined.

End TaskManagerMore.
